(** * JFTT-Tester: the compiler regression harness of [tester/tester.py]

    A shallow embedding of the harness and the proofs of its specified
    properties.  Python [str] values are sequences of Unicode code points,
    [bytes] values are sequences of bytes, the metadata table [tests.main]
    is a finite map shared by reference with every [TestSubject], and the
    methods that touch the disk, the table, the console or the external
    toolchain run in a state-and-exception monad over one [World]. *)

From Stdlib Require Import NArith Ascii String List Lia Permutation.
From Stdlib.Strings Require Import Byte.
From Stdlib.Numbers Require Import DecimalString.
From stdpp Require Import base option list gmap infinite.

Local Open Scope N_scope.

(** ** Python strings *)

(** A [str] is the list of its code points. *)
Abbreviation pystr := (list N).
Abbreviation bytes := (list byte).

(** A literal of the source, read character by character. *)
Definition str (s : string) : pystr :=
  map N_of_ascii (list_ascii_of_string s).

Definition NL : N := 10.   (* '\n' *)
Definition GT : N := 62.   (* '>'  *)
Definition SLASH : N := 47.   (* '/'  *)

(** [cons_head c segs] puts [c] in front of the first segment. *)
Definition cons_head (c : N) (segs : list pystr) : list pystr :=
  match segs with
  | seg :: rest => (c :: seg) :: rest
  | [] => [[c]]
  end.

(** [s.split(sep)] for a one-character separator: every occurrence of
    [sep] ends a segment, and the result is never empty. *)
Fixpoint split (sep : N) (s : pystr) : list pystr :=
  match s with
  | [] => [[]]
  | c :: s' =>
      if c =? sep then [] :: split sep s'
      else cons_head c (split sep s')
  end.

(** [s.split(sep, maxsplit)]: at most [maxsplit] cuts, the remainder of the
    string is the last segment. *)
Fixpoint split_max (sep : N) (s : pystr) (maxsplit : nat) {struct s}
  : list pystr :=
  match maxsplit, s with
  | O, _ => [s]
  | S _, [] => [[]]
  | S k, c :: s' =>
      if c =? sep then [] :: split_max sep s' k
      else cons_head c (split_max sep s' maxsplit)
  end.

(** [sep.join(parts)]. *)
Fixpoint join (sep : pystr) (parts : list pystr) : pystr :=
  match parts with
  | [] => []
  | [p] => p
  | p :: ps => p ++ sep ++ join sep ps
  end.

(** [str.isspace] on one character, the table of CPython's
    [_PyUnicode_IsWhitespace]. *)
Definition isspace (c : N) : bool :=
  ((9 <=? c) && (c <=? 13)) || ((28 <=? c) && (c <=? 32))
  || (c =? 133) || (c =? 160) || (c =? 5760)
  || ((8192 <=? c) && (c <=? 8202))
  || (c =? 8232) || (c =? 8233) || (c =? 8239) || (c =? 8287)
  || (c =? 12288).

Fixpoint lstrip (s : pystr) : pystr :=
  match s with
  | c :: s' => if isspace c then lstrip s' else s
  | [] => []
  end.

Definition rstrip (s : pystr) : pystr := rev (lstrip (rev s)).

(** [s.strip()] *)
Definition strip (s : pystr) : pystr := rstrip (lstrip s).

(** [needle in hay] on strings. *)
Fixpoint startswith (hay needle : pystr) : bool :=
  match needle, hay with
  | [], _ => true
  | _ :: _, [] => false
  | n :: needle', h :: hay' => (h =? n) && startswith hay' needle'
  end.

Fixpoint contains (hay needle : pystr) : bool :=
  startswith hay needle ||
  match hay with
  | [] => false
  | _ :: hay' => contains hay' needle
  end.

(** ** The output parser *)

(** [line.split('>')[1]]; the comprehension only evaluates it under the
    guard [len(line.split('>')) > 1], where the index is in range. *)
Definition second_segment (line : pystr) : pystr :=
  default [] (split GT line !! 1%nat).

Definition parse_output (raw_output : pystr) : list pystr :=
  map (fun line => strip (second_segment line))
      (filter (fun line => (1 < length (split GT line))%nat)
              (split NL raw_output)).

(** ** UTF-8 *)

Definition is_cont (b : N) : bool := (128 <=? b) && (b <=? 191).

(** [bytes.decode('utf-8')] in strict mode on the byte values: [None]
    stands for [UnicodeDecodeError].  Overlong forms, surrogates and code
    points above U+10FFFF are refused. *)
Fixpoint utf8_decode (bs : list N) : option pystr :=
  match bs with
  | [] => Some []
  | b0 :: r0 =>
      if b0 <? 128 then cons b0 <$> utf8_decode r0
      else if (194 <=? b0) && (b0 <=? 223) then
        match r0 with
        | b1 :: r1 =>
            if is_cont b1
            then cons ((b0 - 192) * 64 + (b1 - 128)) <$> utf8_decode r1
            else None
        | _ => None
        end
      else if (224 <=? b0) && (b0 <=? 239) then
        match r0 with
        | b1 :: b2 :: r2 =>
            if is_cont b1 && is_cont b2
               && negb ((b0 =? 224) && (b1 <? 160))
               && negb ((b0 =? 237) && (159 <? b1))
            then cons ((b0 - 224) * 4096 + (b1 - 128) * 64 + (b2 - 128))
                   <$> utf8_decode r2
            else None
        | _ => None
        end
      else if (240 <=? b0) && (b0 <=? 244) then
        match r0 with
        | b1 :: b2 :: b3 :: r3 =>
            if is_cont b1 && is_cont b2 && is_cont b3
               && negb ((b0 =? 240) && (b1 <? 144))
               && negb ((b0 =? 244) && (143 <? b1))
            then cons ((b0 - 240) * 262144 + (b1 - 128) * 4096
                       + (b2 - 128) * 64 + (b3 - 128))
                   <$> utf8_decode r3
            else None
        | _ => None
        end
      else None
  end.

Definition decode (b : bytes) : option pystr :=
  utf8_decode (map Byte.to_N b).

(** The bytes of one code point; surrogates cannot be encoded. *)
Definition utf8_encode_char (c : N) : option (list N) :=
  if c <? 128 then Some [c]
  else if c <? 2048 then Some [192 + c / 64; 128 + c mod 64]
  else if c <? 65536 then
    if (55296 <=? c) && (c <=? 57343) then None
    else Some [224 + c / 4096; 128 + (c / 64) mod 64; 128 + c mod 64]
  else if c <? 1114112 then
    Some [240 + c / 262144; 128 + (c / 4096) mod 64;
          128 + (c / 64) mod 64; 128 + c mod 64]
  else None.

(** [str.encode('utf-8')]: [None] stands for [UnicodeEncodeError]. *)
Definition encode (s : pystr) : option bytes :=
  ns ← mapM utf8_encode_char s; mapM Byte.of_N (concat ns).

(** ** Exceptions, metadata, and the world the harness runs in *)

(** The exception classes that occur: the three of the harness, and the
    built-in ones its statements can raise.  [SubprocessError] stands for
    whatever [subprocess.check_output] raises ([CalledProcessError] on a
    non-zero exit, [OSError] when the executable cannot be started), with
    its message. *)
Inductive exn :=
| NoMetaError
| CompilationFailed
| CompilationException
| RuntimeError
| IndexError
| KeyError (key : pystr)
| AttributeError (name : pystr)
| UnicodeDecodeError
| UnicodeEncodeError
| FileNotFoundError (fpath : pystr)
| SubprocessError (detail : pystr).

(** What [meta['real_output']] can hold. *)
Inductive RealOutput :=
| ROText (s : pystr)
| ROExc (e : exn)
| ROTokens (tokens : list pystr).

(** One entry of [tests.main].  Every entry of the table is a dict with the
    keys ['title'], ['input'] and ['output']; ['real_output'] is the key the
    harness stores into, absent in the table as written. *)
Record TestCase := {
  title : pystr;
  input : list (list pystr);
  output : list (list pystr);
  real_output : option RealOutput
}.

Definition set_real_output (v : RealOutput) (e : TestCase) : TestCase :=
  {| title := title e; input := input e; output := output e;
     real_output := Some v |}.

(** The keys of the dict an entry stands for. *)
Definition keys (e : TestCase) : gset pystr :=
  {[ str "title"; str "input"; str "output" ]}
  ∪ match real_output e with
    | Some _ => {[ str "real_output" ]}
    | None => ∅
    end.

Record Summary := {
  failed : nat;
  passed : nat;
  compilation_failed : nat;
  no_meta : nat;
  exceptions : nat
}.

(** [Summary()] *)
Definition Summary_init : Summary :=
  {| failed := 0; passed := 0; compilation_failed := 0; no_meta := 0;
     exceptions := 0 |}.

(** A [TestSubject] object.  [meta] is a reference to the entry of the
    table, not a copy: it is kept as the entry's key in [tests_dct], and
    every store through it lands in the table.  [expected] is unset until
    [test] runs. *)
Record TestSubject := {
  input_fpath : pystr;
  meta : pystr;
  expected : option (list pystr)
}.

Inductive error_key := FAIL | COMP_FAIL | COMP_EXC | INTER_EXC.

Definition errors (k : error_key) : pystr :=
  match k with
  | FAIL => str "Test failed:"
  | COMP_FAIL => str "Unexpected compilation failure:"
  | COMP_EXC => str "Unexpected compilation exception:"
  | INTER_EXC => str "Unexpected interpreter exception:"
  end.

(** What the harness prints, one constructor per printing function. *)
Inductive printed :=
| PBlank
| PNoMeta (fpath : pystr)
| PInvalidMeta (fpath : pystr)
| PError (error_name fpath case_title : pystr)
         (expected_output : list pystr) (actual : RealOutput)
| PPassed
| PHeader (dir_ : pystr).

(** The subprocesses started. *)
Inductive call :=
| CallCompiler (stdin : bytes)
| CallInterpreter (artifact : pystr) (stdin : bytes).

(** How a subprocess run by [check_output] ends. *)
Inductive proc_result :=
| Exited (stdout_bytes : bytes)
| Crashed (detail : pystr).

(** The external toolchain: the compiler maps the program on its standard
    input to its output; the interpreter is given what the artifact file
    holds ([None] when there is no such file) and its standard input. *)
Record Toolchain := {
  compiler : bytes -> proc_result;
  interpreter : option bytes -> bytes -> proc_result
}.

Record World := {
  files : gmap pystr bytes;            (* the disk *)
  tests_dct : gmap pystr TestCase;     (* tests.main *)
  subjects : list TestSubject;         (* the TestSubject objects *)
  summary : Summary;                   (* the Summary object *)
  last_ok : bool;                      (* Tester.last_ok *)
  stdout : list printed;               (* the console, oldest first *)
  calls : list call                    (* subprocesses, oldest first *)
}.

Definition with_files (f : gmap pystr bytes) (w : World) : World :=
  {| files := f; tests_dct := tests_dct w; subjects := subjects w;
     summary := summary w; last_ok := last_ok w; stdout := stdout w;
     calls := calls w |}.

Definition with_tests_dct (t : gmap pystr TestCase) (w : World) : World :=
  {| files := files w; tests_dct := t; subjects := subjects w;
     summary := summary w; last_ok := last_ok w; stdout := stdout w;
     calls := calls w |}.

Definition with_subjects (s : list TestSubject) (w : World) : World :=
  {| files := files w; tests_dct := tests_dct w; subjects := s;
     summary := summary w; last_ok := last_ok w; stdout := stdout w;
     calls := calls w |}.

Definition with_summary (s : Summary) (w : World) : World :=
  {| files := files w; tests_dct := tests_dct w; subjects := subjects w;
     summary := s; last_ok := last_ok w; stdout := stdout w;
     calls := calls w |}.

Definition with_last_ok (b : bool) (w : World) : World :=
  {| files := files w; tests_dct := tests_dct w; subjects := subjects w;
     summary := summary w; last_ok := b; stdout := stdout w;
     calls := calls w |}.

Definition with_stdout (o : list printed) (w : World) : World :=
  {| files := files w; tests_dct := tests_dct w; subjects := subjects w;
     summary := summary w; last_ok := last_ok w; stdout := o;
     calls := calls w |}.

Definition with_calls (c : list call) (w : World) : World :=
  {| files := files w; tests_dct := tests_dct w; subjects := subjects w;
     summary := summary w; last_ok := last_ok w; stdout := stdout w;
     calls := c |}.

(** ** The monad of the harness: state and exceptions *)

Inductive res (A : Type) :=
| Ok (a : A)
| Raise (e : exn).
Arguments Ok {A} a.
Arguments Raise {A} e.

Definition M (A : Type) : Type := World -> res A * World.

Definition ret {A} (a : A) : M A := fun w => (Ok a, w).
Definition raise {A} (e : exn) : M A := fun w => (Raise e, w).

Definition bind {A B} (m : M A) (k : A -> M B) : M B :=
  fun w =>
    match m w with
    | (Ok a, w') => k a w'
    | (Raise e, w') => (Raise e, w')
    end.

(** [try: m  except ... as e: h e]; a handler that does not match the
    class of [e] re-raises it. *)
Definition catch {A} (m : M A) (h : exn -> M A) : M A :=
  fun w =>
    match m w with
    | (Ok a, w') => (Ok a, w')
    | (Raise e, w') => h e w'
    end.

Definition get : M World := fun w => (Ok w, w).
Definition modify (f : World -> World) : M unit := fun w => (Ok tt, f w).

Declare Scope harness_scope.
Delimit Scope harness_scope with harness.
Notation "x <- m ;; k" := (bind m (fun x => k))
  (at level 100, m at next level, right associativity) : harness_scope.
Notation "m ;;; k" := (bind m (fun _ => k))
  (at level 100, right associativity) : harness_scope.
Local Open Scope harness_scope.

(** [for x in l: body x] *)
Fixpoint for_each {A} (l : list A) (body : A -> M unit) : M unit :=
  match l with
  | [] => ret tt
  | x :: l' => body x ;;; for_each l' body
  end.

(** ** Primitive effects *)

Definition print (p : printed) : M unit :=
  modify (fun w => with_stdout (stdout w ++ [p]) w).

(** [mkstemp()[1]]: a new, empty file under a name not in use. *)
Definition mkstemp : M pystr :=
  fun w =>
    let fpath := fresh (dom (files w)) in
    (Ok fpath, with_files (<[fpath := []]> (files w)) w).

(** [open(fpath)] for reading, as far as the harness uses it: the contents
    handed to the child process. *)
Definition open_read (fpath : pystr) : M bytes :=
  w <- get ;;
  match files w !! fpath with
  | Some content => ret content
  | None => raise (FileNotFoundError fpath)
  end.

(** [with open(fpath, 'wb') as f: f.write(content)] *)
Definition write_file (fpath : pystr) (content : bytes) : M unit :=
  modify (fun w => with_files (<[fpath := content]> (files w)) w).

(** [os.remove(fpath)] *)
Definition os_remove (fpath : pystr) : M unit :=
  w <- get ;;
  match files w !! fpath with
  | Some _ => modify (fun w => with_files (delete fpath (files w)) w)
  | None => raise (FileNotFoundError fpath)
  end.

(** [posixpath.join(a, b)] *)
Definition path_join (a b : pystr) : pystr :=
  if startswith b [SLASH] then b
  else match last a with
       | None => a ++ b
       | Some c => if c =? SLASH then a ++ b else a ++ SLASH :: b
       end.

(** Reading through the references held by the harness.  A reference that
    was never handed out cannot occur in a run; a read through one is
    reported as the failed attribute or item access. *)
Definition deref (self : nat) : M TestSubject :=
  w <- get ;;
  match subjects w !! self with
  | Some subj => ret subj
  | None => raise (AttributeError (str "self"))
  end.

Definition deref_meta (self : nat) : M TestCase :=
  subj <- deref self ;;
  w <- get ;;
  match tests_dct w !! meta subj with
  | Some entry => ret entry
  | None => raise (KeyError (meta subj))
  end.

(** [self.meta['real_output'] = v]: a store into the shared entry. *)
Definition store_real_output (self : nat) (v : RealOutput) : M unit :=
  subj <- deref self ;;
  modify (fun w =>
    with_tests_dct (alter (set_real_output v) (meta subj) (tests_dct w)) w).

(** [self.meta['real_output']] *)
Definition load_real_output (self : nat) : M RealOutput :=
  entry <- deref_meta self ;;
  match real_output entry with
  | Some v => ret v
  | None => raise (KeyError (str "real_output"))
  end.

(** [self.expected = output_] *)
Definition store_expected (self : nat) (output_ : list pystr) : M unit :=
  subj <- deref self ;;
  modify (fun w =>
    with_subjects
      (<[self := {| input_fpath := input_fpath subj; meta := meta subj;
                    expected := Some output_ |}]> (subjects w)) w).

(** [TestSubject(input_fpath=..., meta=...)]: a new object. *)
Definition TestSubject_new (fpath meta_ref : pystr) : M nat :=
  fun w =>
    (Ok (length (subjects w)),
     with_subjects
       (subjects w ++ [{| input_fpath := fpath; meta := meta_ref;
                          expected := None |}]) w).

(** ** The harness *)

Section Harness.

Variable tc : Toolchain.

(** [subprocess.check_output([COMPILER_PATH], stdin=input_f)] *)
Definition run_compiler (source : bytes) : M bytes :=
  modify (fun w => with_calls (calls w ++ [CallCompiler source]) w) ;;;
  match compiler tc source with
  | Exited out => ret out
  | Crashed detail => raise (SubprocessError detail)
  end.

(** [subprocess.check_output([INTERPRETER_PATH, compiled], input=input_)] *)
Definition run_interpreter (compiled : pystr) (input_ : bytes) : M bytes :=
  modify (fun w =>
    with_calls (calls w ++ [CallInterpreter compiled input_]) w) ;;;
  w <- get ;;
  match interpreter tc (files w !! compiled) input_ with
  | Exited out => ret out
  | Crashed detail => raise (SubprocessError detail)
  end.

Definition compile_to_file (input_fpath output_fpath : pystr) : M unit :=
  input_f <- open_read input_fpath ;;
  compiled <- run_compiler input_f ;;
  match decode compiled with
  | None => raise UnicodeDecodeError
  | Some text =>
      if contains text (str "Syntax error") then raise CompilationFailed
      else write_file output_fpath compiled
  end.

Definition _compile (self : nat) (compiled : pystr) : M unit :=
  subj <- deref self ;;
  catch (compile_to_file (input_fpath subj) compiled)
    (fun e =>
       match e with
       | CompilationFailed =>
           store_real_output self (ROText (str "Compilation failed")) ;;;
           raise CompilationFailed
       | _ =>
           store_real_output self (ROExc e) ;;;
           raise CompilationException
       end).

Definition test (self : nat) (input_ : bytes) (output_ : list pystr)
  : M bool :=
  store_expected self output_ ;;;
  compiled <- mkstemp ;;
  _compile self compiled ;;;
  result <- catch (run_interpreter compiled input_)
              (fun e => store_real_output self (ROExc e) ;;;
                        raise RuntimeError) ;;
  match decode result with
  | None => raise UnicodeDecodeError
  | Some text =>
      store_real_output self (ROTokens (parse_output text)) ;;;
      os_remove compiled ;;;
      actual <- load_real_output self ;;
      ret (match actual with
           | ROTokens tokens => bool_decide (tokens = output_)
           | _ => false
           end)
  end.

(** The tokens of the table are strings, on which [str] is the
    identity. *)
Definition load_input (input_ : list pystr) : M bytes :=
  match encode (join [NL] input_) with
  | Some b => ret b
  | None => raise UnicodeEncodeError
  end.

Definition print_no_meta (fpath : pystr) : M unit :=
  print (PNoMeta fpath).

Definition invalid_meta (fpath : pystr) : M unit :=
  print (PInvalidMeta fpath).

Definition print_error (subj : nat) (error_name : pystr) : M unit :=
  s <- deref subj ;;
  entry <- deref_meta subj ;;
  exp <- match expected s with
         | Some e => ret e
         | None => raise (AttributeError (str "expected"))
         end ;;
  actual <- load_real_output subj ;;
  print (PError error_name (input_fpath s) (title entry) exp actual).

Definition print_passed : M unit := print PPassed.

Definition load_meta (fpath : pystr) : M pystr :=
  match split_max SLASH fpath 2 !! 2%nat with
  | None => raise IndexError
  | Some key =>
      w <- get ;;
      match tests_dct w !! key with
      | Some _ => ret key
      | None => raise NoMetaError
      end
  end.

(** *** class Tester *)

Definition handle_exc (print_fn : M unit) : M unit :=
  print PBlank ;;;
  print_fn ;;;
  modify (with_last_ok false).

Definition bump_failed (s : Summary) : Summary :=
  {| failed := S (failed s); passed := passed s;
     compilation_failed := compilation_failed s; no_meta := no_meta s;
     exceptions := exceptions s |}.

Definition bump_passed (s : Summary) : Summary :=
  {| failed := failed s; passed := S (passed s);
     compilation_failed := compilation_failed s; no_meta := no_meta s;
     exceptions := exceptions s |}.

Definition bump_compilation_failed (s : Summary) : Summary :=
  {| failed := failed s; passed := passed s;
     compilation_failed := S (compilation_failed s); no_meta := no_meta s;
     exceptions := exceptions s |}.

Definition bump_no_meta (s : Summary) : Summary :=
  {| failed := failed s; passed := passed s;
     compilation_failed := compilation_failed s; no_meta := S (no_meta s);
     exceptions := exceptions s |}.

Definition bump_exceptions (s : Summary) : Summary :=
  {| failed := failed s; passed := passed s;
     compilation_failed := compilation_failed s; no_meta := no_meta s;
     exceptions := S (exceptions s) |}.

Definition count (bump : Summary -> Summary) : M unit :=
  modify (fun w => with_summary (bump (summary w)) w).

(** The body of the loop of [test_imp]: one scenario. *)
Definition scenario (subj : nat) (in_ out_ : list pystr) : M unit :=
  s <- deref subj ;;
  catch
    (input_ <- load_input in_ ;;
     result <- test subj input_ out_ ;;
     if negb result then
       count bump_failed ;;;
       handle_exc (print_error subj (errors FAIL))
     else
       print_passed ;;;
       count bump_passed ;;;
       modify (with_last_ok true))
    (fun e =>
       match e with
       | NoMetaError =>
           handle_exc (print_no_meta (input_fpath s)) ;;;
           count bump_no_meta
       | CompilationFailed =>
           handle_exc (print_error subj (errors COMP_FAIL)) ;;;
           count bump_compilation_failed
       | CompilationException =>
           handle_exc (print_error subj (errors COMP_EXC)) ;;;
           count bump_compilation_failed
       | RuntimeError =>
           handle_exc (print_error subj (errors INTER_EXC)) ;;;
           count bump_exceptions
       | _ => raise e
       end).

Definition test_imp (subj : nat) : M unit :=
  s <- deref subj ;;
  entry <- deref_meta subj ;;
  let inputs := input entry in
  let outputs := output entry in
  if negb (length inputs =? length outputs)%nat then
    handle_exc (invalid_meta (input_fpath s))
  else
    for_each (zip inputs outputs)
      (fun io => scenario subj (fst io) (snd io)).

Definition test_dir (dir_ : pystr) (fnames : list pystr) : M unit :=
  print (PHeader dir_) ;;;
  for_each fnames (fun fname =>
    let fpath := path_join dir_ fname in
    found <- catch (key <- load_meta fpath ;; ret (Some key))
               (fun e =>
                  match e with
                  | NoMetaError =>
                      handle_exc (print_no_meta fpath) ;;; ret None
                  | _ => raise e
                  end) ;;
    match found with
    | None => ret tt
    | Some meta_ref =>
        subj <- TestSubject_new fpath meta_ref ;;
        test_imp subj
    end).

(** [test_all], over what [os.walk(dir_)] yields: the directories with
    the names of the files in each. *)
Definition test_all (walk : list (pystr * list pystr)) : M unit :=
  for_each walk (fun d =>
    match snd d with
    | [] => ret tt
    | _ :: _ => test_dir (fst d) (snd d)
    end).

End Harness.

(** ** The vocabulary of the specification *)

(** The text before the first [sep] of [s] (all of [s] when there is none)
    and the text after it (nothing when there is none). *)
Fixpoint before (sep : N) (s : pystr) : pystr :=
  match s with
  | [] => []
  | c :: s' => if c =? sep then [] else c :: before sep s'
  end.

Fixpoint after (sep : N) (s : pystr) : pystr :=
  match s with
  | [] => []
  | c :: s' => if c =? sep then s' else after sep s'
  end.

(** The parser as the specification words it: per line with a ['>'], the
    trimmed text that follows the first ['>']. *)
Definition parse_spec (raw_output : pystr) : list pystr :=
  map (fun line => strip (after GT line))
      (filter (fun line => GT ∈ line) (split NL raw_output)).

(** The outcome of one scenario.  The harness has no such value: it takes
    one branch per outcome, and each branch prints its own block. *)
Module Outcome.
Inductive t :=
| Passed
| Failed (expected_tokens : list pystr) (actual : RealOutput)
| CompilationFailed
| CompilationError (detail : RealOutput)
| ExecutionError (detail : RealOutput)
| MissingMetadata
| MalformedMetadata.
End Outcome.

Definition pystr_eqb (a b : pystr) : bool := bool_decide (a = b).

(** The outcome a printed block reports; the blank line and the directory
    header report none. *)
Definition outcome_of (p : printed) : option Outcome.t :=
  match p with
  | PPassed => Some Outcome.Passed
  | PNoMeta _ => Some Outcome.MissingMetadata
  | PInvalidMeta _ => Some Outcome.MalformedMetadata
  | PError name _ _ exp actual =>
      if pystr_eqb name (errors FAIL) then Some (Outcome.Failed exp actual)
      else if pystr_eqb name (errors COMP_FAIL)
           then Some Outcome.CompilationFailed
      else if pystr_eqb name (errors COMP_EXC)
           then Some (Outcome.CompilationError actual)
      else if pystr_eqb name (errors INTER_EXC)
           then Some (Outcome.ExecutionError actual)
      else None
  | PBlank | PHeader _ => None
  end.

Definition outcomes (console : list printed) : list Outcome.t :=
  omap outcome_of console.

(** What a run adds to the console: the part of [stdout w'] after
    [stdout w]. *)
Definition printed_since (w w' : World) : list printed :=
  drop (length (stdout w)) (stdout w').

(** [record] as the specification words it. *)
Definition record_spec (o : Outcome.t) (s : Summary) : Summary :=
  match o with
  | Outcome.Passed => bump_passed s
  | Outcome.Failed _ _ => bump_failed s
  | Outcome.CompilationFailed | Outcome.CompilationError _ =>
      bump_compilation_failed s
  | Outcome.MissingMetadata | Outcome.MalformedMetadata => bump_no_meta s
  | Outcome.ExecutionError _ => bump_exceptions s
  end.

(** The four counters of the final report. *)
Definition tally (s : Summary) : nat * nat * nat * nat :=
  (passed s, failed s, compilation_failed s, exceptions s).

(** The part of an entry the table was written with. *)
Definition static_part (e : TestCase) : pystr * list (list pystr) * list (list pystr) :=
  (title e, input e, output e).

(** An initial world: a disk, the table as loaded, nothing run yet. *)
Definition init_world (disk : gmap pystr bytes)
    (table : gmap pystr TestCase) : World :=
  {| files := disk; tests_dct := table; subjects := [];
     summary := Summary_init; last_ok := false; stdout := []; calls := [] |}.

Definition ascii_bytes (s : string) : bytes := list_byte_of_string s.

(** The example of the specification: the lines [a], [b > 1 ], [c] and
    [d > 2]. *)
Definition spec_example : pystr :=
  str "a" ++ [NL] ++ str "b > 1 " ++ [NL] ++ str "c" ++ [NL] ++ str "d > 2".

(** What one scenario lets an observer see, its end and the blocks it
    prints, written as a function of what it is run on: the toolchain, the
    program in the source file ([None] when the file cannot be opened), the
    tokens, and the path and title that the blocks quote. *)
Definition scenario_verdict (tc : Toolchain) (source : option bytes)
    (in_ out_ : list pystr) (fpath case_title : pystr)
  : res unit * list printed :=
  let block k actual :=
    (Ok tt, [PBlank; PError (errors k) fpath case_title out_ actual]) in
  match encode (join [NL] in_) with
  | None => (Raise UnicodeEncodeError, [])
  | Some input_ =>
      match source with
      | None => block COMP_EXC (ROExc (FileNotFoundError fpath))
      | Some program =>
          match compiler tc program with
          | Crashed detail => block COMP_EXC (ROExc (SubprocessError detail))
          | Exited art =>
              match decode art with
              | None => block COMP_EXC (ROExc UnicodeDecodeError)
              | Some text =>
                  if contains text (str "Syntax error")
                  then block COMP_FAIL (ROText (str "Compilation failed"))
                  else
                    match interpreter tc (Some art) input_ with
                    | Crashed detail =>
                        block INTER_EXC (ROExc (SubprocessError detail))
                    | Exited result =>
                        match decode result with
                        | None => (Raise UnicodeDecodeError, [])
                        | Some raw =>
                            if bool_decide (parse_output raw = out_)
                            then (Ok tt, [PPassed])
                            else block FAIL (ROTokens (parse_output raw))
                        end
                    end
              end
          end
      end
  end.

(** The tag of an outcome, as the counter of the final report it belongs
    to in the specification. *)
Definition is_passed (o : Outcome.t) : bool :=
  match o with Outcome.Passed => true | _ => false end.

Definition is_failed (o : Outcome.t) : bool :=
  match o with Outcome.Failed _ _ => true | _ => false end.

Definition is_compilation_failure (o : Outcome.t) : bool :=
  match o with
  | Outcome.CompilationFailed | Outcome.CompilationError _ => true
  | _ => false
  end.

Definition is_execution_error (o : Outcome.t) : bool :=
  match o with Outcome.ExecutionError _ => true | _ => false end.

Definition is_metadata_warning (o : Outcome.t) : bool :=
  match o with
  | Outcome.MissingMetadata | Outcome.MalformedMetadata => true
  | _ => false
  end.

Definition count_if {A} (p : A -> bool) (l : list A) : nat :=
  length (List.filter p l).

(** How often each counted outcome occurs: passes, failures, compilation
    failures of both kinds, execution errors. *)
Definition tag_counts (os : list Outcome.t) : nat * nat * nat * nat :=
  (count_if is_passed os, count_if is_failed os,
   count_if is_compilation_failure os, count_if is_execution_error os).

Definition add4 (a b : nat * nat * nat * nat) : nat * nat * nat * nat :=
  let '(a1, a2, a3, a4) := a in
  let '(b1, b2, b3, b4) := b in
  (a1 + b1, a2 + b2, a3 + b3, a4 + b4)%nat.

(** A run from [w] to [w'] extends the console, moves the four counters of
    the final report by what the added blocks report, and leaves the
    title, the inputs and the outputs of every entry of the table as they
    were. *)
Definition extends (w w' : World) : Prop :=
  (exists ps, stdout w' = stdout w ++ ps
              /\ tally (summary w')
                 = add4 (tag_counts (outcomes ps)) (tally (summary w)))
  /\ (forall k, static_part <$> tests_dct w' !! k
                = static_part <$> tests_dct w !! k).

(** A subject that [test_dir] has built for the file [fpath] with the
    entry under [key], seen from the world [w]. *)
Definition live (self : nat) (fpath key : pystr) (w : World) : Prop :=
  exists subj entry,
    subjects w !! self = Some subj /\ input_fpath subj = fpath
    /\ meta subj = key /\ tests_dct w !! key = Some entry.

(** What a run shows: how it ends and what it prints. *)
Definition observe {A} (w : World) (r : res A * World)
  : res A * list printed :=
  (fst r, printed_since w (snd r)).

(** ** Examples: toolchains, table entries and worlds *)

(** A toolchain whose compiler hands the program through and whose
    interpreter echoes its input after ["> "]. *)
Definition echo_toolchain : Toolchain :=
  {| compiler := fun program => Exited program;
     interpreter := fun _ input_ => Exited (ascii_bytes "> " ++ input_) |}.

(** The same compiler with an interpreter that exits with an error. *)
Definition crashing_toolchain : Toolchain :=
  {| compiler := fun program => Exited program;
     interpreter := fun _ _ => Crashed (str "exit status 1") |}.

(** The same compiler with an interpreter that prints the byte [0xff],
    which is not UTF-8, when the program starts with [W], and echoes its
    input otherwise. *)
Definition garbling_toolchain : Toolchain :=
  {| compiler := fun program => Exited program;
     interpreter := fun art input_ =>
       match art with
       | Some (x57 :: _) => Exited [xff]
       | _ => Exited (ascii_bytes "> " ++ input_)
       end |}.

(** A compiler that reports a syntax error, one that cannot be started and
    one that prints a byte that is not UTF-8. *)
Definition rejecting_toolchain : Toolchain :=
  {| compiler := fun _ => Exited (ascii_bytes "Syntax error, line 1");
     interpreter := fun _ input_ => Exited input_ |}.

Definition missing_toolchain : Toolchain :=
  {| compiler := fun _ => Crashed (str "No such file or directory");
     interpreter := fun _ input_ => Exited input_ |}.

Definition garbling_compiler : Toolchain :=
  {| compiler := fun _ => Exited [xff];
     interpreter := fun _ input_ => Exited input_ |}.

(** The entry ['basic/read_put.imp'] of [tests.main], and an entry with
    two input scenarios for one output scenario. *)
Definition read_put : TestCase :=
  {| title := str "Tests assignment, read and put";
     input := [[str "10"]]; output := [[str "10"]]; real_output := None |}.

Definition lopsided : TestCase :=
  {| title := str "Two inputs, one output";
     input := [[str "1"]; [str "2"]]; output := [[str "1"]];
     real_output := None |}.

Definition read_put_path : pystr := str "./in/basic/read_put.imp".
Definition read_put_key : pystr := str "basic/read_put.imp".

(** A disk with the one source file, the table with the one entry, and
    the subject [test_dir] builds for it. *)
Definition read_put_subject : TestSubject :=
  {| input_fpath := read_put_path; meta := read_put_key; expected := None |}.

Definition read_put_world (entry : TestCase) : World :=
  with_subjects [read_put_subject]
    (init_world {[ read_put_path := ascii_bytes "READ a; WRITE a;" ]}
                {[ read_put_key := entry ]}).

(** A corpus of two files: [raw.imp], whose program makes the garbling
    interpreter print a byte that is not text, and [read_put.imp]. *)
Definition raw_case : TestCase :=
  {| title := str "Writes a raw byte";
     input := [[]]; output := [[str "255"]]; real_output := None |}.

Definition two_files_world : World :=
  init_world
    {[ str "./in/basic/raw.imp" := ascii_bytes "WRITE 255;";
       read_put_path := ascii_bytes "READ a; WRITE a;" ]}
    {[ str "basic/raw.imp" := raw_case; read_put_key := read_put ]}.

(** The world before any file is looked at, with one entry in the
    table. *)
Definition fresh_world (entry : TestCase) : World :=
  init_world {[ read_put_path := ascii_bytes "READ a; WRITE a;" ]}
             {[ read_put_key := entry ]}.

(** ** Further vocabulary *)

(** A code point [str.encode('utf-8')] accepts: a Unicode scalar value,
    that is, up to U+10FFFF and not a surrogate. *)
Definition encodable (c : N) : bool :=
  (c <? 55296) || ((57343 <? c) && (c <? 1114112)).

(** A compile that leaves an artifact: the compiler runs, and prints text
    without the marker. *)
Definition compiles_cleanly (tc : Toolchain) (program : bytes) : bool :=
  match compiler tc program with
  | Exited art =>
      match decode art with
      | Some text => negb (contains text (str "Syntax error"))
      | None => false
      end
  | Crashed _ => false
  end.

(** The exceptions that leave [test_dir]. *)
Definition escapes (e : exn) : Prop :=
  e = IndexError \/ e = UnicodeDecodeError \/ e = UnicodeEncodeError.

(** What no run changes: the [no_meta] counter, and the files that are
    on the disk when it starts. *)
Definition keeps (w w' : World) : Prop :=
  no_meta (summary w') = no_meta (summary w)
  /\ (forall p content,
        files w !! p = Some content -> files w' !! p = Some content).

(** How a computation ends, with respect to an invariant [I] of the worlds
    it returns in and the exceptions [Q] it may raise. *)
Definition ends {A} (I : World -> Prop) (Q : exn -> Prop)
    (r : res A * World) : Prop :=
  match fst r with
  | Ok _ => I (snd r)
  | Raise e => Q e
  end.

(** ** The final report *)

(** An ANSI escape sequence, ['\033'] followed by [code]. *)
Definition esc (code : string) : pystr := 27 :: str code.

Module bcolors.
Definition HEADER : pystr := esc "[95m".
Definition OKBLUE : pystr := esc "[94m".
Definition OKGREEN : pystr := esc "[92m".
Definition WARNING : pystr := esc "[93m".
Definition FAIL : pystr := esc "[91m".
Definition ENDC : pystr := esc "[0m".
Definition BOLD : pystr := esc "[1m".
Definition UNDERLINE : pystr := esc "[4m".
End bcolors.

(** [str(n)] for a counter: its decimal digits. *)
Definition int_str (n : nat) : pystr :=
  str (NilZero.string_of_uint (Nat.to_uint n)).

(** [Summary.__str__] *)
Definition Summary_str (s : Summary) : pystr :=
  let res := bcolors.BOLD ++ str "Summary: " ++ [NL] ++ bcolors.ENDC in
  let res :=
    if (0 <? passed s)%nat
    then res ++ bcolors.OKGREEN ++ str "Passed: " ++ int_str (passed s)
             ++ [NL]
    else res in
  let res :=
    if (0 <? failed s)%nat
    then res ++ bcolors.FAIL ++ str "Failed: " ++ int_str (failed s) ++ [NL]
    else res in
  let res :=
    if (0 <? compilation_failed s)%nat
    then res ++ (bcolors.FAIL ++ str "Compilation failed: "
                 ++ int_str (compilation_failed s)) ++ [NL]
    else res in
  let res :=
    if (0 <? exceptions s)%nat
    then res ++ (bcolors.FAIL ++ str "Exceptions thrown: "
                 ++ int_str (exceptions s) ++ [NL])
    else res in
  res ++ bcolors.ENDC.

(** [1] for a counter that is listed, [0] for one that is not. *)
Definition listed (n : nat) : nat := if (0 <? n)%nat then 1 else 0.

(** * Proofs *)

(** ** Symbolic execution of the harness *)

(** A computation of the harness applied to a world unfolds to its body; the
    tactics below run it as far as the context decides its branches. *)
Arguments bind {A B} m k w /.
Arguments catch {A} m h w /.
Arguments ret {A} a w /.
Arguments raise {A} e w /.
Arguments get w /.
Arguments modify f w /.
Arguments print p w /.
Arguments mkstemp w /.
Arguments open_read fpath w /.
Arguments write_file fpath content w /.
Arguments os_remove fpath w /.
Arguments deref self w /.
Arguments deref_meta self w /.
Arguments store_real_output self v w /.
Arguments load_real_output self w /.
Arguments store_expected self output_ w /.
Arguments TestSubject_new fpath meta_ref w /.
Arguments run_compiler tc source w /.
Arguments run_interpreter tc compiled input_ w /.
Arguments compile_to_file tc input_fpath output_fpath w /.
Arguments _compile tc self compiled w /.
Arguments test tc self input_ output_ w /.
Arguments load_input input_ w /.
Arguments print_no_meta fpath w /.
Arguments invalid_meta fpath w /.
Arguments print_error subj error_name w /.
Arguments print_passed w /.
Arguments load_meta fpath w /.
Arguments handle_exc print_fn w /.
Arguments count bump w /.
Arguments scenario tc subj in_ out_ w /.

Ltac mrun :=
  cbn [bind catch ret raise get modify print mkstemp open_read write_file
       os_remove deref deref_meta store_real_output load_real_output
       store_expected TestSubject_new run_compiler run_interpreter
       compile_to_file _compile test load_input print_no_meta invalid_meta
       print_error print_passed load_meta handle_exc count scenario
       fst snd files tests_dct subjects summary last_ok stdout calls
       with_files with_tests_dct with_subjects with_summary with_last_ok
       with_stdout with_calls input_fpath meta expected
       title input output real_output set_real_output negb
       fmap option_fmap option_map].

(** One step of symbolic execution: a lookup that the context or the map
    laws decide is rewritten. *)
Ltac mlookup :=
  match goal with
  | H : ?x = _ |- context [match ?x with _ => _ end] => rewrite H
  | H : ?m !! ?i = _ |- context [?m !! ?i] => rewrite H
  | |- context [alter _ ?i _ !! ?i] => rewrite lookup_alter_eq
  | |- context [<[?i := _]> _ !! ?i] =>
      first [ rewrite lookup_insert_eq
            | rewrite list_lookup_insert_eq by (done || (simpl; lia)) ]
  end.

Ltac mexec := mrun; repeat (mlookup; mrun).

(** The case distinctions of a scenario, in the order the harness makes
    them. *)
Ltac mbranch :=
  match goal with
  | |- context [match encode ?s with _ => _ end] =>
      destruct (encode s) eqn:?
  | |- context [match compiler ?tc ?p with _ => _ end] =>
      destruct (compiler tc p) eqn:?
  | |- context [match decode ?b with _ => _ end] =>
      destruct (decode b) eqn:?
  | |- context [match contains ?t ?n with _ => _ end] =>
      destruct (contains t n) eqn:?
  | |- context [match interpreter ?tc ?a ?i with _ => _ end] =>
      destruct (interpreter tc a i) eqn:?
  | |- context [bool_decide ?P] => destruct (bool_decide P) eqn:?
  end.

Ltac mpaths := mexec; repeat (mbranch; mexec).

(** Equality of tuples of counters, component by component. *)
Ltac tuple_eq := repeat (apply (f_equal2 pair)); lia.

(** ** Strings *)

Lemma split_nonempty sep s : split sep s <> [].
Proof.
  destruct s as [|c s]; simpl; [done|].
  destruct (c =? sep); [done|].
  destruct (split sep s); done.
Qed.

Lemma elem_of_cons_neq (sep c : N) (s : pystr) :
  (c =? sep) = false -> (sep ∈ c :: s <-> sep ∈ s).
Proof.
  intros Hne. apply N.eqb_neq in Hne. rewrite elem_of_cons. split; [intros [->|?]; done|by right].
Qed.

(** The first segment is the text before the first separator; the
    other segments are those of the text after it. *)
Lemma split_before_after sep s :
  split sep s =
    before sep s ::
      (if bool_decide (sep ∈ s) then split sep (after sep s) else []).
Proof.
  induction s as [|c s IH].
  - case_bool_decide as H; [|done]. by apply elem_of_nil in H.
  - cbn [split before after]. destruct (c =? sep) eqn:Hc.
    + apply N.eqb_eq in Hc as ->.
      rewrite bool_decide_eq_true_2; [done|]. by left.
    + rewrite IH. cbn [cons_head].
      by rewrite (bool_decide_ext _ _ (elem_of_cons_neq sep c s Hc)).
Qed.

Lemma split_length_gt sep s :
  (1 < length (split sep s))%nat <-> sep ∈ s.
Proof.
  rewrite split_before_after. case_bool_decide as H; simpl.
  - split; [done|]. intros _.
    pose proof (split_nonempty sep (after sep s)) as Hne.
    destruct (split sep (after sep s)); [done|]. simpl. lia.
  - split; [lia|done].
Qed.

Lemma second_segment_between line :
  GT ∈ line -> second_segment line = before GT (after GT line).
Proof.
  intros H. unfold second_segment.
  rewrite split_before_after, bool_decide_eq_true_2 by done.
  simpl. by rewrite split_before_after.
Qed.

Lemma before_after sep s :
  sep ∈ s -> s = before sep s ++ sep :: after sep s.
Proof.
  induction s as [|c s IH]; simpl; intros H.
  - by apply elem_of_nil in H.
  - destruct (c =? sep) eqn:Hc.
    + by apply N.eqb_eq in Hc as ->.
    + simpl. f_equal. apply IH. by apply (elem_of_cons_neq sep c s Hc).
Qed.

Lemma before_no_sep sep s : sep ∉ before sep s.
Proof.
  induction s as [|c s IH]; simpl.
  - apply not_elem_of_nil.
  - destruct (c =? sep) eqn:Hc.
    + apply not_elem_of_nil.
    + rewrite (elem_of_cons_neq sep c _ Hc). done.
Qed.

Lemma before_no_sep_id sep s : sep ∉ s -> before sep s = s.
Proof.
  induction s as [|c s IH]; simpl; [done|].
  rewrite not_elem_of_cons. intros [Hne Hs].
  destruct (c =? sep) eqn:Hc.
  - apply N.eqb_eq in Hc. congruence.
  - by rewrite IH.
Qed.

Lemma join_split sep s : join [sep] (split sep s) = s.
Proof.
  induction s as [|c s IH]; simpl; [done|].
  destruct (c =? sep) eqn:Hc.
  - apply N.eqb_eq in Hc as ->.
    pose proof (split_nonempty sep s) as Hne.
    destruct (split sep s) eqn:E; [done|]. simpl in *. by rewrite IH.
  - pose proof (split_nonempty sep s) as Hne.
    destruct (split sep s) as [|seg [|seg' segs]] eqn:E; [done| |];
      simpl in *; by rewrite <- IH.
Qed.

Lemma split_segments_no_sep sep s seg : seg ∈ split sep s -> sep ∉ seg.
Proof.
  revert seg. induction s as [|c s IH]; simpl; intros seg.
  - rewrite list_elem_of_singleton. intros ->. apply not_elem_of_nil.
  - destruct (c =? sep) eqn:Hc.
    + rewrite elem_of_cons. intros [->|H]; [apply not_elem_of_nil|by apply IH].
    + pose proof (split_nonempty sep s) as Hne.
      destruct (split sep s) as [|seg0 segs]; [done|]. simpl.
      rewrite elem_of_cons. intros [->|H].
      * rewrite (elem_of_cons_neq sep c _ Hc). apply IH. by left.
      * apply IH. by right.
Qed.

Lemma lstrip_spec s :
  exists ws, s = ws ++ lstrip s /\ Forall (fun c => isspace c = true) ws /\
             (forall c, head (lstrip s) = Some c -> isspace c = false).
Proof.
  induction s as [|c s (ws & E & Hws & Hhd)]; simpl.
  - by exists [].
  - destruct (isspace c) eqn:Hc.
    + exists (c :: ws). split; [simpl; congruence|]. split; [by constructor|done].
    + exists []. split; [done|]. split; [constructor|].
      simpl. by intros ? [= <-].
Qed.

Lemma last_rev_head (s : pystr) : last (rev s) = head s.
Proof.
  destruct s as [|c s]; [done|]. simpl. by rewrite last_snoc.
Qed.

(** [strip] removes whitespace, and only whitespace, from both ends. *)
Lemma strip_spec s :
  exists l r, s = l ++ strip s ++ r /\
    Forall (fun c => isspace c = true) l /\
    Forall (fun c => isspace c = true) r /\
    (forall c, head (strip s) = Some c -> isspace c = false) /\
    (forall c, last (strip s) = Some c -> isspace c = false).
Proof.
  destruct (lstrip_spec s) as (l & El & Hl & Hhd).
  destruct (lstrip_spec (rev (lstrip s))) as (r & Er & Hr & Hlast).
  assert (lstrip s = strip s ++ rev r) as E.
  { unfold strip, rstrip. rewrite <- rev_app_distr, <- Er.
    by rewrite rev_involutive. }
  exists l, (rev r). split; [by rewrite <- E|].
  split; [done|]. split; [by apply Forall_rev|]. split.
  - intros c Hc. apply Hhd. rewrite E.
    destruct (strip s); [done|]. simpl in *. done.
  - intros c Hc. apply Hlast. unfold strip, rstrip in Hc.
    by rewrite last_rev_head in Hc.
Qed.

(** ** The output parser *)

Lemma parse_output_between raw_output :
  parse_output raw_output =
    map (fun line => strip (before GT (after GT line)))
        (filter (fun line => GT ∈ line) (split NL raw_output)).
Proof.
  unfold parse_output.
  rewrite (list_filter_iff _ (fun line => GT ∈ line))
    by (intros; apply split_length_gt).
  apply map_ext_in. intros line Hin.
  apply list_elem_of_In, list_elem_of_filter in Hin as [Hgt _].
  by rewrite second_segment_between.
Qed.

(** C1, as the parser has it: one token per line with a ['>'], in line
    order, each the trimmed text between the first ['>'] of its line and
    the next one (or the end of the line); the other lines are dropped; and
    the example of the specification parses to ["1"; "2"]. *)
Theorem parse_output_tokens (raw_output : pystr) :
  parse_output raw_output =
    map (fun line => strip (before GT (after GT line)))
        (filter (fun line => GT ∈ line) (split NL raw_output))
  /\ length (parse_output raw_output) =
       length (filter (fun line => GT ∈ line) (split NL raw_output))
  /\ parse_output spec_example = [str "1"; str "2"].
Proof.
  split; [apply parse_output_between|]. split; [|reflexivity].
  by rewrite parse_output_between, length_map.
Qed.

(** C1 as stated fails: on the line [x > 1 > 2] the text after the first
    ['>'] is [1 > 2], and the parser yields [1]. *)
Lemma parse_output_keeps_one_segment :
  parse_spec (str "x > 1 > 2") = [str "1 > 2"]
  /\ parse_output (str "x > 1 > 2") = [str "1"]
  /\ parse_output (str "x > 1 > 2") <> parse_spec (str "x > 1 > 2").
Proof.
  split; [by vm_compute|]. split; [by vm_compute|]. by vm_compute.
Qed.

(** ** Runs of the harness *)

Lemma fresh_ne_existing (disk : gmap pystr bytes) fpath content :
  disk !! fpath = Some content -> fresh (dom disk) <> fpath.
Proof.
  intros H E. apply (is_fresh (dom disk)). rewrite E.
  by apply elem_of_dom_2 in H.
Qed.

Lemma outcome_of_error k fpath t e a :
  outcome_of (PError (errors k) fpath t e a) =
    Some match k with
         | FAIL => Outcome.Failed e a
         | COMP_FAIL => Outcome.CompilationFailed
         | COMP_EXC => Outcome.CompilationError a
         | INTER_EXC => Outcome.ExecutionError a
         end.
Proof. by destruct k. Qed.

Lemma static_part_alter (v : RealOutput) (key : pystr)
    (table : gmap pystr TestCase) (k : pystr) :
  static_part <$> alter (set_real_output v) key table !! k
  = static_part <$> table !! k.
Proof.
  destruct (decide (key = k)) as [->|Hne].
  - rewrite lookup_alter_eq. by destruct (table !! k).
  - by rewrite lookup_alter_ne.
Qed.

Lemma count_if_app {A} (p : A -> bool) l1 l2 :
  count_if p (l1 ++ l2) = (count_if p l1 + count_if p l2)%nat.
Proof. unfold count_if. by rewrite List.filter_app, length_app. Qed.

Lemma tag_counts_app os1 os2 :
  tag_counts (os1 ++ os2) = add4 (tag_counts os2) (tag_counts os1).
Proof.
  unfold tag_counts, add4. rewrite !count_if_app. tuple_eq.
Qed.

Lemma outcomes_app ps1 ps2 :
  outcomes (ps1 ++ ps2) = outcomes ps1 ++ outcomes ps2.
Proof. apply omap_app. Qed.

Lemma add4_assoc a b c : add4 a (add4 b c) = add4 (add4 a b) c.
Proof.
  destruct a as [[[? ?] ?] ?], b as [[[? ?] ?] ?], c as [[[? ?] ?] ?].
  unfold add4. tuple_eq.
Qed.

Lemma extends_refl w : extends w w.
Proof.
  split; [|done]. exists []. rewrite app_nil_r. split; [done|].
  unfold tally. reflexivity.
Qed.

Lemma extends_trans w1 w2 w3 : extends w1 w2 -> extends w2 w3 -> extends w1 w3.
Proof.
  intros [(ps1 & E1 & T1) S1] [(ps2 & E2 & T2) S2]. split.
  - exists (ps1 ++ ps2). split; [by rewrite E2, E1, app_assoc|].
    by rewrite T2, T1, outcomes_app, tag_counts_app, add4_assoc.
  - intros k. by rewrite S2, S1.
Qed.

(** A loop keeps what each round keeps, also when a round ends it by an
    exception. *)
Lemma for_each_extends {A} (I : World -> Prop) (body : A -> M unit) l :
  (forall x w, I w -> extends w (snd (body x w)) /\ I (snd (body x w))) ->
  forall w, I w ->
    extends w (snd (for_each l body w)) /\ I (snd (for_each l body w)).
Proof.
  intros Hbody. induction l as [|x l IH]; intros w Hw.
  - split; [apply extends_refl|done].
  - cbn [for_each]. mrun.
    destruct (Hbody x w Hw) as [Hext HI].
    destruct (body x w) as [[[]|e] w']; cbn [fst snd] in *; [|done].
    destruct (IH w' HI) as [Hext' HI']. split; [|done].
    eapply extends_trans; eauto.
Qed.

Section Run.
Variable tc : Toolchain.

Lemma scenario_run w self subj entry in_ out_ :
  subjects w !! self = Some subj ->
  tests_dct w !! meta subj = Some entry ->
  let compiled := fresh (dom (files w)) in
  let source := <[compiled := []]> (files w) !! input_fpath subj in
  let v := scenario_verdict tc source in_ out_
             (input_fpath subj) (title entry) in
  let r := scenario tc self in_ out_ w in
  fst r = fst v
  /\ stdout (snd r) = stdout w ++ snd v
  /\ tally (summary (snd r))
     = add4 (tag_counts (outcomes (snd v))) (tally (summary w))
  /\ no_meta (summary (snd r)) = no_meta (summary w)
  /\ (exists subj', subjects (snd r) !! self = Some subj'
                    /\ input_fpath subj' = input_fpath subj
                    /\ meta subj' = meta subj)
  /\ (forall k, static_part <$> tests_dct (snd r) !! k
                = static_part <$> tests_dct w !! k)
  /\ (forall p, p <> compiled -> files (snd r) !! p = files w !! p).
Proof.
  intros Hs He compiled source v r. subst v r.
  pose proof (lookup_lt_Some _ _ _ Hs) as Hlt.
  unfold scenario_verdict.
  mexec. mbranch; mexec.
  2:{ rewrite app_nil_r. repeat split; eauto. }
  fold compiled. fold source.
  destruct source as [program|] eqn:Hsrc; mpaths.
  all: try rewrite <- !app_assoc.
  all: repeat match goal with |- _ /\ _ => split end; try reflexivity.
  all: try (eexists; split; [reflexivity|done]).
  all: try (intros k; rewrite ?static_part_alter; reflexivity).
  all: try (by rewrite app_nil_r).
  all: try (eexists; split; [eassumption|done]).
  all: intros p Hp; fold compiled;
    by rewrite ?lookup_delete_ne, ?lookup_insert_ne by done.
Qed.

Lemma scenario_extends self fpath key in_ out_ w :
  live self fpath key w ->
  extends w (snd (scenario tc self in_ out_ w))
  /\ live self fpath key (snd (scenario tc self in_ out_ w)).
Proof.
  intros (subj & entry & Hs & <- & <- & He).
  destruct (scenario_run w self subj entry in_ out_ Hs He)
    as (_ & Hout & Htally & _ & (subj' & Hs' & Hp & Hm) & Hstatic & _).
  split; [split; [eauto|done]|].
  pose proof (Hstatic (meta subj)) as Hk. rewrite He in Hk.
  destruct (tests_dct (snd (scenario tc self in_ out_ w)) !! meta subj)
    as [entry'|] eqn:He'; [|done].
  by exists subj', entry'.
Qed.

Lemma test_imp_extends self fpath key w :
  live self fpath key w -> extends w (snd (test_imp tc self w)).
Proof.
  intros Hlive. pose proof Hlive as (subj & entry & Hs & <- & <- & He).
  unfold test_imp. mexec.
  destruct (negb _); mexec.
  - split; [|done]. eexists. split; [by rewrite <- app_assoc|].
    reflexivity.
  - eapply (for_each_extends (live self (input_fpath subj) (meta subj)));
      [|done].
    intros [in_ out_] w' Hw'. by apply scenario_extends.
Qed.

Lemma test_dir_extends dir_ fnames w :
  extends w (snd (test_dir tc dir_ fnames w)).
Proof.
  unfold test_dir. mexec.
  eapply extends_trans; [|
    eapply (for_each_extends (fun _ => True)); [|done]].
  { split; [|done]. eexists. split; [done|]. reflexivity. }
  clear w. intros fname w _. split; [|done]. mexec.
  destruct (split_max SLASH _ 2 !! 2%nat) as [key|]; mexec;
    [|apply extends_refl].
  destruct (tests_dct w !! key) as [entry|] eqn:He; mexec.
  - eapply extends_trans; [|eapply test_imp_extends].
    + split; [|done]. exists []. by rewrite app_nil_r.
    + eexists _, entry. split; [apply list_lookup_middle; reflexivity|].
      done.
  - split; [|done]. eexists. split; [by rewrite <- app_assoc|].
    reflexivity.
Qed.

Lemma test_all_extends walk w :
  extends w (snd (test_all tc walk w)).
Proof.
  unfold test_all.
  eapply (for_each_extends (fun _ => True)); [|done].
  intros [dir_ [|fname fnames]] w' _; (split; [|done]); cbn [fst snd].
  - apply extends_refl.
  - apply test_dir_extends.
Qed.
End Run.

(** ** Metadata lookup *)

Lemma split_max_no_sep sep s n : sep ∉ s -> split_max sep s n = [s].
Proof.
  induction s as [|c s IH]; intros Hs.
  - by destruct n.
  - destruct n as [|n]; [done|].
    apply not_elem_of_cons in Hs as [Hne Hs]. cbn [split_max].
    destruct (c =? sep) eqn:Hc; [apply N.eqb_eq in Hc; congruence|].
    by rewrite IH.
Qed.

Lemma split_max_cut sep a t k :
  sep ∉ a -> split_max sep (a ++ sep :: t) (S k) = a :: split_max sep t k.
Proof.
  induction a as [|c a IH]; intros Ha; cbn [app split_max].
  - by rewrite N.eqb_refl.
  - apply not_elem_of_cons in Ha as [Hne Ha].
    destruct (c =? sep) eqn:Hc; [apply N.eqb_eq in Hc; congruence|].
    by rewrite IH.
Qed.

Lemma split_max_0 sep s : split_max sep s 0 = [s].
Proof. by destruct s. Qed.

Lemma count_if_sep_0 sep (s : pystr) :
  count_if (N.eqb sep) s = 0%nat <-> sep ∉ s.
Proof.
  unfold count_if. induction s as [|c s IH]; cbn [List.filter].
  - split; [intros _; apply not_elem_of_nil|done].
  - rewrite not_elem_of_cons. destruct (sep =? c) eqn:Hc.
    + apply N.eqb_eq in Hc. split; [done|]. intros [? _]. congruence.
    + apply N.eqb_neq in Hc. rewrite IH. split; [done|by intros [_ ?]].
Qed.

Lemma count_if_cut sep (a t : pystr) :
  sep ∉ a ->
  count_if (N.eqb sep) (a ++ sep :: t) = S (count_if (N.eqb sep) t).
Proof.
  intros Ha. rewrite count_if_app. apply count_if_sep_0 in Ha as ->.
  unfold count_if. cbn [List.filter]. by rewrite N.eqb_refl.
Qed.

(** The three shapes of a path, by its number of separators. *)
Lemma path_shape (fpath : pystr) :
  ((SLASH ∉ fpath) /\ count_if (N.eqb SLASH) fpath = 0%nat)
  \/ (exists a t, fpath = a ++ SLASH :: t /\ (SLASH ∉ a) /\ (SLASH ∉ t)
                  /\ count_if (N.eqb SLASH) fpath = 1%nat)
  \/ (exists a b rest, fpath = a ++ SLASH :: b ++ SLASH :: rest
                       /\ (SLASH ∉ a) /\ (SLASH ∉ b)
                       /\ (2 <= count_if (N.eqb SLASH) fpath)%nat).
Proof.
  destruct (decide (SLASH ∈ fpath)) as [Hin|Hnot].
  - right. pose proof (before_after SLASH fpath Hin) as E.
    pose proof (before_no_sep SLASH fpath) as Ha.
    destruct (decide (SLASH ∈ after SLASH fpath)) as [Hin'|Hnot'].
    + right. pose proof (before_after SLASH _ Hin') as E'.
      pose proof (before_no_sep SLASH (after SLASH fpath)) as Hb.
      exists (before SLASH fpath), (before SLASH (after SLASH fpath)),
             (after SLASH (after SLASH fpath)).
      split; [by rewrite <- E'|]. split; [done|]. split; [done|].
      rewrite E, count_if_cut, E', count_if_cut by done. lia.
    + left. exists (before SLASH fpath), (after SLASH fpath).
      split; [done|]. split; [done|]. split; [done|].
      rewrite E, count_if_cut by done.
      by apply count_if_sep_0 in Hnot' as ->.
  - left. split; [done|]. by apply count_if_sep_0.
Qed.

Lemma split_max_third (a b rest : pystr) :
  (SLASH ∉ a) -> (SLASH ∉ b) ->
  split_max SLASH (a ++ SLASH :: b ++ SLASH :: rest) 2 !! 2%nat = Some rest.
Proof.
  intros Ha Hb. by rewrite !split_max_cut, split_max_0 by done.
Qed.

Lemma split_max_short (fpath : pystr) :
  (count_if (N.eqb SLASH) fpath < 2)%nat ->
  split_max SLASH fpath 2 !! 2%nat = None.
Proof.
  intros Hlt.
  destruct (path_shape fpath)
    as [[Hnot _]|[(a & t & -> & Ha & Ht & _)|(a & b & r & _ & _ & _ & Hge)]].
  - by rewrite split_max_no_sep.
  - by rewrite split_max_cut, split_max_no_sep.
  - lia.
Qed.

(** C10: the key under which [load_meta] looks a file up is what follows
    the second ['/'] of its path; a path with fewer than two ['/'] ends the
    lookup with [IndexError], which is not the missing-metadata signal; and
    [NoMetaError] is raised only when the path has its two separators and
    the table has no entry under the key. *)
Theorem load_meta_key (fpath : pystr) (w : World) :
  (forall a b rest,
      (SLASH ∉ a) -> (SLASH ∉ b) -> fpath = a ++ SLASH :: b ++ SLASH :: rest ->
      load_meta fpath w =
        (match tests_dct w !! rest with
         | Some _ => Ok rest
         | None => Raise NoMetaError
         end, w))
  /\ ((count_if (N.eqb SLASH) fpath < 2)%nat ->
      load_meta fpath w = (Raise IndexError, w))
  /\ (fst (load_meta fpath w) = Raise NoMetaError ->
      exists a b rest,
        fpath = a ++ SLASH :: b ++ SLASH :: rest /\ (SLASH ∉ a) /\ (SLASH ∉ b)
        /\ tests_dct w !! rest = None).
Proof.
  split; [|split].
  - intros a b rest Ha Hb ->. mrun.
    rewrite split_max_third by done. mrun.
    by destruct (tests_dct w !! rest).
  - intros Hlt. mrun. by rewrite split_max_short.
  - destruct (path_shape fpath)
      as [[Hnot Hc]|[(a & t & E & Ha & Ht & Hc)|(a & b & r & -> & Ha & Hb & _)]].
    + mrun. rewrite split_max_short by lia. done.
    + mrun. rewrite split_max_short by lia. done.
    + mrun. rewrite split_max_third by done. mrun.
      destruct (tests_dct w !! r) eqn:E; [done|]. intros _.
      by exists a, b, r.
Qed.

Lemma load_meta_key_witness :
  load_meta (str "./in/basic/assign.imp")
    (init_world ∅ {[ str "basic/assign.imp" :=
       {| title := str "Tests assignment by :="; input := [[]];
          output := [[str "13"]]; real_output := None |} ]})
  = (Ok (str "basic/assign.imp"),
     init_world ∅ {[ str "basic/assign.imp" :=
       {| title := str "Tests assignment by :="; input := [[]];
          output := [[str "13"]]; real_output := None |} ]})
  /\ load_meta (str "in/assign.imp") (init_world ∅ ∅)
     = (Raise IndexError, init_world ∅ ∅)
  /\ exists a b rest,
       str "./in/nowhere.imp" = a ++ SLASH :: b ++ SLASH :: rest
       /\ (SLASH ∉ a) /\ (SLASH ∉ b)
       /\ tests_dct (init_world ∅ ∅) !! rest = None.
Proof.
  split; [|split].
  - etrans.
    + apply (proj1 (load_meta_key _ _) (str ".") (str "in")
               (str "basic/assign.imp"));
        [by apply count_if_sep_0|by apply count_if_sep_0|reflexivity].
    + by vm_compute.
  - apply (proj1 (proj2 (load_meta_key _ _))). vm_compute. lia.
  - apply (proj2 (proj2 (load_meta_key _ _))). reflexivity.
Defined.

(** ** Malformed metadata *)

(** C4: a test case whose numbers of input and output scenarios differ is
    reported once as malformed, for the whole case: [test_imp] returns
    after the one warning, no subprocess is started, the disk and the
    summary are as before. *)
Theorem malformed_metadata_reported_once
    (tc : Toolchain) (w : World) (self : nat)
    (subj : TestSubject) (entry : TestCase) :
  subjects w !! self = Some subj ->
  tests_dct w !! meta subj = Some entry ->
  length (input entry) <> length (output entry) ->
  let r := test_imp tc self w in
  fst r = Ok tt
  /\ printed_since w (snd r) = [PBlank; PInvalidMeta (input_fpath subj)]
  /\ outcomes (printed_since w (snd r)) = [Outcome.MalformedMetadata]
  /\ calls (snd r) = calls w
  /\ files (snd r) = files w
  /\ summary (snd r) = summary w.
Proof.
  intros Hs He Hlen r. subst r. unfold test_imp, printed_since. mexec.
  apply Nat.eqb_neq in Hlen. rewrite Hlen. mexec.
  rewrite <- app_assoc, drop_app_length. done.
Qed.

Lemma malformed_metadata_reported_once_witness :
  let r := test_imp echo_toolchain 0 (read_put_world lopsided) in
  fst r = Ok tt
  /\ printed_since (read_put_world lopsided) (snd r)
     = [PBlank; PInvalidMeta read_put_path]
  /\ outcomes (printed_since (read_put_world lopsided) (snd r))
     = [Outcome.MalformedMetadata]
  /\ calls (snd r) = []
  /\ files (snd r) = files (read_put_world lopsided)
  /\ summary (snd r) = Summary_init.
Proof.
  apply (malformed_metadata_reported_once echo_toolchain
           (read_put_world lopsided) 0 read_put_subject lopsided);
    [reflexivity|reflexivity|by vm_compute].
Defined.

(** ** Compilation *)

(** C6: the three ends of a compile call.  When the text the compiler
    prints contains ["Syntax error"] the call raises [CompilationFailed] and
    the disk is as before; when the source cannot be opened, the compiler
    cannot be run or its output is not text, it raises
    [CompilationException] and the exception caught is kept as the real
    output; otherwise it returns and the artifact path holds the bytes the
    compiler printed. *)
Theorem compile_outcomes
    (tc : Toolchain) (w : World) (self : nat) (subj : TestSubject)
    (entry : TestCase) (compiled : pystr) :
  subjects w !! self = Some subj ->
  tests_dct w !! meta subj = Some entry ->
  let r := _compile tc self compiled w in
  (forall program out text,
      files w !! input_fpath subj = Some program ->
      compiler tc program = Exited out ->
      decode out = Some text ->
      contains text (str "Syntax error") = true ->
      fst r = Raise CompilationFailed /\ files (snd r) = files w
      /\ real_output <$> tests_dct (snd r) !! meta subj
         = Some (Some (ROText (str "Compilation failed"))))
  /\ (files w !! input_fpath subj = None
      \/ (exists program detail,
            files w !! input_fpath subj = Some program
            /\ compiler tc program = Crashed detail)
      \/ (exists program out,
            files w !! input_fpath subj = Some program
            /\ compiler tc program = Exited out /\ decode out = None) ->
      fst r = Raise CompilationException /\ files (snd r) = files w
      /\ exists e, e <> CompilationFailed
           /\ real_output <$> tests_dct (snd r) !! meta subj
              = Some (Some (ROExc e)))
  /\ (forall program out text,
      files w !! input_fpath subj = Some program ->
      compiler tc program = Exited out ->
      decode out = Some text ->
      contains text (str "Syntax error") = false ->
      fst r = Ok tt /\ files (snd r) = <[compiled := out]> (files w)
      /\ tests_dct (snd r) = tests_dct w).
Proof.
  intros Hs He r. subst r. split; [|split].
  - intros program out text Hf Hc Hd Hse. by mexec.
  - intros [Hf|[(program & detail & Hf & Hc)|(program & out & Hf & Hc & Hd)]];
      mexec; (split; [done|]); (split; [done|]);
      eexists; (split; [|reflexivity]); done.
  - intros program out text Hf Hc Hd Hse. by mexec.
Qed.

Lemma compile_outcomes_witness :
  (let r := _compile rejecting_toolchain 0 (str "/tmp/tmp0")
              (read_put_world read_put) in
   fst r = Raise CompilationFailed
   /\ files (snd r) = files (read_put_world read_put)
   /\ real_output <$> tests_dct (snd r) !! read_put_key
      = Some (Some (ROText (str "Compilation failed"))))
  /\ (let r := _compile missing_toolchain 0 (str "/tmp/tmp0")
                 (read_put_world read_put) in
      fst r = Raise CompilationException
      /\ files (snd r) = files (read_put_world read_put)
      /\ exists e, e <> CompilationFailed
           /\ real_output <$> tests_dct (snd r) !! read_put_key
              = Some (Some (ROExc e)))
  /\ (let r := _compile echo_toolchain 0 (str "/tmp/tmp0")
                 (read_put_world read_put) in
      fst r = Ok tt
      /\ files (snd r)
         = <[str "/tmp/tmp0" := ascii_bytes "READ a; WRITE a;"]>
             (files (read_put_world read_put))
      /\ tests_dct (snd r) = tests_dct (read_put_world read_put)).
Proof.
  split; [|split].
  - eapply (proj1 (compile_outcomes rejecting_toolchain
                     (read_put_world read_put) 0 read_put_subject read_put
                     (str "/tmp/tmp0") eq_refl eq_refl));
      reflexivity.
  - eapply (proj1 (proj2 (compile_outcomes missing_toolchain
                     (read_put_world read_put) 0 read_put_subject read_put
                     (str "/tmp/tmp0") eq_refl eq_refl))).
    right. left. eexists _, _. split; reflexivity.
  - eapply (proj2 (proj2 (compile_outcomes echo_toolchain
                     (read_put_world read_put) 0 read_put_subject read_put
                     (str "/tmp/tmp0") eq_refl eq_refl)));
      reflexivity.
Defined.

(** ** The temporary artifact *)

(** When [test] returns, the artifact it made is gone from the disk. *)
Lemma artifact_removed_on_return
    (tc : Toolchain) (w : World) (self : nat) (subj : TestSubject)
    (entry : TestCase) (input_ : bytes) (out_ : list pystr) (b : bool) :
  subjects w !! self = Some subj ->
  tests_dct w !! meta subj = Some entry ->
  fst (test tc self input_ out_ w) = Ok b ->
  files (snd (test tc self input_ out_ w)) !! fresh (dom (files w)) = None.
Proof.
  intros Hs He. pose proof (lookup_lt_Some _ _ _ Hs) as Hlt.
  mexec.
  destruct (<[fresh (dom (files w)):=[]]> (files w) !! input_fpath subj);
    mpaths; try done.
  all: intros _; apply lookup_delete_eq.
Qed.

(** C2: what [test] leaves behind when the interpreter fails.  The program
    compiles, the interpreter exits with an error: [test] raises
    [RuntimeError], and the file it made for the artifact, which was not on
    the disk before, is still there with the compiled bytes in it. *)
Theorem artifact_left_after_execution_error
    (tc : Toolchain) (w : World) (self : nat) (subj : TestSubject)
    (input_ : bytes) (out_ : list pystr)
    (program art : bytes) (text detail : pystr) :
  subjects w !! self = Some subj ->
  files w !! input_fpath subj = Some program ->
  compiler tc program = Exited art ->
  decode art = Some text ->
  contains text (str "Syntax error") = false ->
  interpreter tc (Some art) input_ = Crashed detail ->
  let compiled := fresh (dom (files w)) in
  let r := test tc self input_ out_ w in
  files w !! compiled = None
  /\ fst r = Raise RuntimeError
  /\ files (snd r) !! compiled = Some art.
Proof.
  intros Hs Hf Hc Hd Hse Hi compiled r. subst r.
  pose proof (lookup_lt_Some _ _ _ Hs) as Hlt.
  pose proof (fresh_ne_existing _ _ _ Hf) as Hne. fold compiled in Hne.
  split; [apply not_elem_of_dom, is_fresh|].
  mexec. fold compiled. rewrite lookup_insert_ne by done. mexec.
  done.
Qed.

Lemma artifact_left_after_execution_error_witness :
  let w := read_put_world read_put in
  let compiled := fresh (dom (files w)) in
  let r := test crashing_toolchain 0 (ascii_bytes "10") [str "10"] w in
  files w !! compiled = None
  /\ fst r = Raise RuntimeError
  /\ files (snd r) !! compiled = Some (ascii_bytes "READ a; WRITE a;").
Proof.
  eapply (artifact_left_after_execution_error crashing_toolchain
            (read_put_world read_put) 0 read_put_subject);
    reflexivity.
Defined.

(** ** One scenario *)

(** What a scenario shows is the verdict on the program in its source
    file; nothing else of the world it starts in enters it. *)
Lemma scenario_observed
    (tc : Toolchain) (w : World) (self : nat) (subj : TestSubject)
    (entry : TestCase) (in_ out_ : list pystr) (program : bytes) :
  subjects w !! self = Some subj ->
  tests_dct w !! meta subj = Some entry ->
  files w !! input_fpath subj = Some program ->
  observe w (scenario tc self in_ out_ w)
  = scenario_verdict tc (Some program) in_ out_
      (input_fpath subj) (title entry).
Proof.
  intros Hs He Hf.
  destruct (scenario_run tc w self subj entry in_ out_ Hs He)
    as (Hres & Hout & _).
  rewrite lookup_insert_ne, Hf in Hres, Hout
    by (eapply fresh_ne_existing; eauto).
  unfold observe, printed_since. rewrite Hres, Hout, drop_app_length.
  by destruct (scenario_verdict _ _ _ _ _ _).
Qed.

(** C8: a scenario that compiles and runs cleanly ends in one report, a
    pass when the tokens parsed from the output are the expected tokens,
    and otherwise a failure that carries the expected and the parsed
    tokens; the two sequences are the same exactly when they have the
    same length and the same token at every position. *)
Theorem clean_run_compares_tokens
    (tc : Toolchain) (w : World) (self : nat) (subj : TestSubject)
    (entry : TestCase) (in_ out_ : list pystr)
    (program input_ art result : bytes) (text raw : pystr) :
  subjects w !! self = Some subj ->
  tests_dct w !! meta subj = Some entry ->
  files w !! input_fpath subj = Some program ->
  encode (join [NL] in_) = Some input_ ->
  compiler tc program = Exited art ->
  decode art = Some text ->
  contains text (str "Syntax error") = false ->
  interpreter tc (Some art) input_ = Exited result ->
  decode result = Some raw ->
  let r := scenario tc self in_ out_ w in
  fst r = Ok tt
  /\ outcomes (printed_since w (snd r))
     = [if bool_decide (parse_output raw = out_)
        then Outcome.Passed
        else Outcome.Failed out_ (ROTokens (parse_output raw))]
  /\ (parse_output raw = out_ <->
      length (parse_output raw) = length out_
      /\ forall i, parse_output raw !! i = out_ !! i).
Proof.
  intros Hs He Hf Hin Hc Hd Hse Hi Hr r. subst r.
  pose proof (scenario_observed tc w self subj entry in_ out_ program
                Hs He Hf) as Hobs.
  unfold observe, scenario_verdict in Hobs.
  rewrite Hin, Hc, Hd, Hse, Hi, Hr in Hobs.
  split; [|split].
  - apply (f_equal fst) in Hobs. cbn [fst] in Hobs. rewrite Hobs.
    by case_bool_decide.
  - apply (f_equal snd) in Hobs. cbn [snd] in Hobs. rewrite Hobs.
    by case_bool_decide.
  - split; [by intros ->|]. intros [_ Hi']. by apply list_eq.
Qed.

Lemma clean_run_compares_tokens_witness :
  let w := read_put_world read_put in
  let r := scenario echo_toolchain 0 [str "10"] [str "10"] w in
  fst r = Ok tt
  /\ outcomes (printed_since w (snd r))
     = [if bool_decide (parse_output (str "> 10") = [str "10"])
        then Outcome.Passed
        else Outcome.Failed [str "10"]
               (ROTokens (parse_output (str "> 10")))]
  /\ (parse_output (str "> 10") = [str "10"] <->
      length (parse_output (str "> 10")) = length [str "10"]
      /\ forall i, parse_output (str "> 10") !! i = [str "10"] !! i).
Proof.
  eapply (clean_run_compares_tokens echo_toolchain
            (read_put_world read_put) 0 read_put_subject read_put);
    reflexivity.
Defined.

(** C9: the outcome of a scenario is a function of the file, the
    metadata and the toolchain.  Two runs of a scenario on the same
    program, from any two worlds, with whatever summaries, subjects,
    stored real outputs and other files, end the same way and print the
    same blocks; and so does a second run started in the world the first
    one left. *)
Theorem scenario_outcome_deterministic
    (tc : Toolchain) (w1 w2 : World) (self1 self2 : nat)
    (subj1 subj2 : TestSubject) (entry1 entry2 : TestCase)
    (in_ out_ : list pystr) (program : bytes) :
  subjects w1 !! self1 = Some subj1 ->
  subjects w2 !! self2 = Some subj2 ->
  input_fpath subj1 = input_fpath subj2 ->
  tests_dct w1 !! meta subj1 = Some entry1 ->
  tests_dct w2 !! meta subj2 = Some entry2 ->
  title entry1 = title entry2 ->
  files w1 !! input_fpath subj1 = Some program ->
  files w2 !! input_fpath subj2 = Some program ->
  let r1 := scenario tc self1 in_ out_ w1 in
  let r2 := scenario tc self2 in_ out_ w2 in
  let r1' := scenario tc self1 in_ out_ (snd r1) in
  observe w1 r1 = observe w2 r2
  /\ outcomes (printed_since w1 (snd r1))
     = outcomes (printed_since w2 (snd r2))
  /\ observe (snd r1) r1' = observe w1 r1.
Proof.
  intros Hs1 Hs2 Hp He1 He2 Ht Hf1 Hf2 r1 r2 r1'.
  assert (observe w1 r1 = observe w2 r2) as Hobs.
  { subst r1 r2. erewrite !scenario_observed by eauto. by rewrite Hp, Ht. }
  split; [done|]. split.
  { apply (f_equal snd) in Hobs. cbn [observe snd] in Hobs.
    by rewrite Hobs. }
  destruct (scenario_run tc w1 self1 subj1 entry1 in_ out_ Hs1 He1)
    as (_ & _ & _ & _ & (subj' & Hs' & Hp' & Hm') & Hstatic & Hfiles).
  fold r1 in Hs', Hstatic, Hfiles.
  pose proof (Hstatic (meta subj1)) as Hk. rewrite He1 in Hk.
  destruct (tests_dct (snd r1) !! meta subj1) as [entry'|] eqn:He'; [|done].
  injection Hk as Ht' _ _.
  assert (files (snd r1) !! input_fpath subj' = Some program) as Hf'.
  { rewrite Hp', Hfiles; [done|]. intros E. symmetry in E. revert E.
    eapply fresh_ne_existing; eauto. }
  subst r1 r1'.
  erewrite !scenario_observed by (rewrite ?Hm'; eauto).
  by rewrite Hp', Ht'.
Qed.

Lemma scenario_outcome_deterministic_witness :
  let w1 := read_put_world read_put in
  let w2 := with_summary (bump_failed Summary_init)
              (with_last_ok true (read_put_world read_put)) in
  let r1 := scenario echo_toolchain 0 [str "10"] [str "10"] w1 in
  let r2 := scenario echo_toolchain 0 [str "10"] [str "10"] w2 in
  let r1' := scenario echo_toolchain 0 [str "10"] [str "10"] (snd r1) in
  observe w1 r1 = observe w2 r2
  /\ outcomes (printed_since w1 (snd r1))
     = outcomes (printed_since w2 (snd r2))
  /\ observe (snd r1) r1' = observe w1 r1.
Proof.
  eapply (scenario_outcome_deterministic echo_toolchain
            (read_put_world read_put)
            (with_summary (bump_failed Summary_init)
               (with_last_ok true (read_put_world read_put)))
            0 0 read_put_subject read_put_subject read_put read_put);
    reflexivity.
Defined.

(** ** The table *)

(** C3, as the harness has it: a walk of the corpus leaves the title, the
    inputs and the outputs of every entry of the table, and the set of
    paths the table has entries for, as they were; what it stores into an
    entry goes under ['real_output']. *)
Theorem table_static_part_preserved
    (tc : Toolchain) (walk : list (pystr * list pystr)) (w : World)
    (k : pystr) :
  let w' := snd (test_all tc walk w) in
  static_part <$> tests_dct w' !! k = static_part <$> tests_dct w !! k
  /\ dom (tests_dct w') = dom (tests_dct w).
Proof.
  intros w'. destruct (test_all_extends tc walk w) as [_ Hstatic].
  fold w' in Hstatic. split; [done|].
  apply set_eq. intros k'. rewrite !elem_of_dom.
  rewrite <- (fmap_is_Some static_part (tests_dct w' !! k')).
  rewrite <- (fmap_is_Some static_part (tests_dct w !! k')).
  by rewrite Hstatic.
Qed.

Lemma real_output_key (e : TestCase) :
  str "real_output" ∈ keys e <-> is_Some (real_output e).
Proof.
  unfold keys. rewrite !elem_of_union, !elem_of_singleton.
  destruct (real_output e) as [v|].
  - rewrite elem_of_singleton. split; [by eauto|by right].
  - rewrite elem_of_empty. split; [|by intros [? ?]].
    intros [[[H|H]|H]|[]]; by vm_compute in H.
Qed.

(** C3 as stated fails: after one passing scenario the entry of the file
    has the key ['real_output'], which it did not have, and the table is
    not the table the run started with. *)
Lemma table_entry_gains_real_output :
  let w := fresh_world read_put in
  let w' := snd (test_all echo_toolchain
                   [(str "./in/basic", [str "read_put.imp"])] w) in
  tests_dct w !! read_put_key = Some read_put
  /\ tests_dct w' !! read_put_key
     = Some (set_real_output (ROTokens [str "10"]) read_put)
  /\ (str "real_output" ∉ keys read_put)
  /\ (str "real_output"
        ∈ keys (set_real_output (ROTokens [str "10"]) read_put))
  /\ tests_dct w' <> tests_dct w.
Proof.
  intros w w'.
  assert (tests_dct w !! read_put_key = Some read_put) as E0
    by (vm_compute; reflexivity).
  assert (tests_dct w' !! read_put_key
          = Some (set_real_output (ROTokens [str "10"]) read_put)) as E
    by (vm_compute; reflexivity).
  split; [exact E0|]. split; [exact E|]. split; [|split].
  - rewrite real_output_key. by intros [? ?].
  - rewrite real_output_key. by eexists.
  - intros Heq. rewrite Heq, E0 in E. discriminate E.
Qed.

(** ** The summary *)

Lemma count_if_perm {A} (p : A -> bool) (l l' : list A) :
  l ≡ₚ l' -> count_if p l = count_if p l'.
Proof.
  unfold count_if.
  induction 1 as [|x l l' _ IH|x y l|l l' l'' _ IH _ IH']; cbn [List.filter].
  - done.
  - destruct (p x); cbn [length]; by rewrite IH.
  - by destruct (p x), (p y).
  - by rewrite IH.
Qed.

(** C5, as the harness has it: each report of a scenario moves the one
    counter of its tag, a malformed-metadata warning moves none, so over a
    directory the four counters of the final report grow by the number of
    reports of each tag, in whatever order the reports came. *)
Theorem summary_counts_outcomes
    (tc : Toolchain) (dir_ : pystr) (fnames : list pystr) (w : World) :
  let w' := snd (test_dir tc dir_ fnames w) in
  tally (summary w')
  = add4 (tag_counts (outcomes (printed_since w w'))) (tally (summary w))
  /\ (forall o,
        tag_counts [o] =
          match o with
          | Outcome.Passed => (1, 0, 0, 0)
          | Outcome.Failed _ _ => (0, 1, 0, 0)
          | Outcome.CompilationFailed
          | Outcome.CompilationError _ => (0, 0, 1, 0)
          | Outcome.ExecutionError _ => (0, 0, 0, 1)
          | Outcome.MissingMetadata
          | Outcome.MalformedMetadata => (0, 0, 0, 0)
          end%nat)
  /\ (forall os os', os ≡ₚ os' -> tag_counts os = tag_counts os')
  /\ (forall self subj entry w0,
        subjects w0 !! self = Some subj ->
        tests_dct w0 !! meta subj = Some entry ->
        length (input entry) <> length (output entry) ->
        outcomes (printed_since w0 (snd (test_imp tc self w0)))
        = [Outcome.MalformedMetadata]
        /\ summary (snd (test_imp tc self w0)) = summary w0).
Proof.
  intros w'. split; [|split; [|split]].
  - destruct (test_dir_extends tc dir_ fnames w) as [(ps & Hout & Ht) _].
    fold w' in Hout, Ht. unfold printed_since.
    by rewrite Hout, drop_app_length.
  - by intros [].
  - intros os os' Hperm. unfold tag_counts.
    by rewrite !(count_if_perm _ os os').
  - intros self subj entry w0 Hs He Hlen. unfold test_imp, printed_since.
    mexec. apply Nat.eqb_neq in Hlen. rewrite Hlen. mexec.
    by rewrite <- app_assoc, drop_app_length.
Qed.

Lemma summary_counts_outcomes_witness :
  tag_counts [Outcome.Passed; Outcome.CompilationFailed]
  = tag_counts [Outcome.CompilationFailed; Outcome.Passed]
  /\ outcomes (printed_since (read_put_world lopsided)
                (snd (test_imp echo_toolchain 0 (read_put_world lopsided))))
     = [Outcome.MalformedMetadata]
  /\ summary (snd (test_imp echo_toolchain 0 (read_put_world lopsided)))
     = Summary_init.
Proof.
  pose proof (summary_counts_outcomes echo_toolchain (str "./in/basic")
                [str "read_put.imp"] (fresh_world read_put))
    as (_ & _ & Hperm & Hmal).
  split.
  - apply Hperm. apply perm_swap.
  - apply (Hmal 0%nat read_put_subject lopsided (read_put_world lopsided));
      [reflexivity|reflexivity|by vm_compute].
Defined.

(** C5 as stated fails: the warning for malformed metadata is reported
    and no counter moves, where the specification counts it under
    [no_meta]. *)
Lemma malformed_metadata_not_counted :
  let w := fresh_world lopsided in
  let w' := snd (test_dir echo_toolchain (str "./in/basic")
                   [str "read_put.imp"] w) in
  outcomes (printed_since w w') = [Outcome.MalformedMetadata]
  /\ summary w' = Summary_init
  /\ no_meta (foldr record_spec (summary w) (outcomes (printed_since w w')))
     = 1%nat
  /\ summary w'
     <> foldr record_spec (summary w) (outcomes (printed_since w w')).
Proof.
  intros w w'.
  assert (outcomes (printed_since w w') = [Outcome.MalformedMetadata]) as E
    by (by vm_compute).
  assert (summary w' = Summary_init) as E' by (by vm_compute).
  rewrite E, E'. by repeat split.
Qed.

(** ** Errors that leave the harness *)

(** C7 at the failing input.  The corpus has two files; the interpreter
    prints a byte that is not UTF-8 for the first one.  [test_dir] ends with
    [UnicodeDecodeError]: nothing is reported for either file, no counter
    moves, and the second file, which passes when it is run alone, is
    never compiled. *)
Theorem undecodable_output_aborts_run :
  let w := two_files_world in
  let r := test_dir garbling_toolchain (str "./in/basic")
             [str "raw.imp"; str "read_put.imp"] w in
  let alone := test_dir garbling_toolchain (str "./in/basic")
                 [str "read_put.imp"] w in
  fst r = Raise UnicodeDecodeError
  /\ outcomes (printed_since w (snd r)) = []
  /\ summary (snd r) = Summary_init
  /\ length (calls (snd r)) = 2%nat
  /\ head (calls (snd r)) = Some (CallCompiler (ascii_bytes "WRITE 255;"))
  /\ fst alone = Ok tt
  /\ outcomes (printed_since w (snd alone)) = [Outcome.Passed].
Proof. by vm_compute. Qed.

(** The part of C7 that holds: a file without an entry in the table is
    warned about and the loop goes on to the next file. *)
Lemma missing_metadata_skips_file :
  let w := fresh_world read_put in
  let r := test_dir echo_toolchain (str "./in/basic")
             [str "unknown.imp"; str "read_put.imp"] w in
  fst r = Ok tt
  /\ outcomes (printed_since w (snd r))
     = [Outcome.MissingMetadata; Outcome.Passed].
Proof. by vm_compute. Qed.

(** * Further properties of the harness *)

(** ** The codec *)

(** Comparisons that linear arithmetic decides are replaced by their
    value. *)
Ltac cmp_norm :=
  repeat match goal with
  | |- context [?a <? ?b] =>
      first [ rewrite (proj2 (N.ltb_lt a b)) by lia
            | rewrite (proj2 (N.ltb_ge a b)) by lia ]
  | |- context [?a <=? ?b] =>
      first [ rewrite (proj2 (N.leb_le a b)) by lia
            | rewrite (proj2 (N.leb_gt a b)) by lia ]
  | |- context [?a =? ?b] =>
      first [ rewrite (proj2 (N.eqb_eq a b)) by lia
            | rewrite (proj2 (N.eqb_neq a b)) by lia ]
  end.

(** A code point that is encoded is read back from the front of its
    bytes. *)
Lemma utf8_decode_encode_char (c : N) (enc rest : list N) :
  utf8_encode_char c = Some enc ->
  utf8_decode (enc ++ rest) = cons c <$> utf8_decode rest.
Proof.
  unfold utf8_encode_char.
  pose proof (N.Div0.div_mod c 64). pose proof (N.mod_lt c 64 ltac:(lia)).
  pose proof (N.Div0.div_mod (c / 64) 64).
  pose proof (N.mod_lt (c / 64) 64 ltac:(lia)).
  pose proof (N.Div0.div_mod (c / 4096) 64).
  pose proof (N.mod_lt (c / 4096) 64 ltac:(lia)).
  assert (c / 64 / 64 = c / 4096) as Hdd
    by (rewrite N.Div0.div_div; reflexivity).
  assert (c / 4096 / 64 = c / 262144) as Hdd'
    by (rewrite N.Div0.div_div; reflexivity).
  rewrite Hdd in *. rewrite Hdd' in *. clear Hdd Hdd'.
  set (m1 := (c / 64) mod 64) in *. set (m2 := (c / 4096) mod 64) in *.
  set (q1 := c / 64) in *. set (r1 := c mod 64) in *.
  set (q2 := c / 4096) in *. set (q3 := c / 262144) in *.
  clearbody m1 m2 q1 r1 q2 q3.
  destruct (N.ltb_spec c 128).
  { intros [= <-]. cbn [app utf8_decode]. by cmp_norm. }
  destruct (N.ltb_spec c 2048).
  { intros [= <-]. cbn [app utf8_decode]. unfold is_cont.
    cmp_norm. cbn [andb].
    by replace ((192 + q1 - 192) * 64 + (128 + r1 - 128)) with c by lia. }
  destruct (N.ltb_spec c 65536).
  { destruct ((55296 <=? c) && (c <=? 57343)) eqn:Hs; [done|].
    intros [= <-]. cbn [app utf8_decode]. unfold is_cont.
    assert (c < 55296 \/ 57343 < c) as Hsur.
    { apply andb_false_iff in Hs as [Hs|Hs]; apply N.leb_gt in Hs; lia. }
    destruct (N.eq_dec q2 0), (N.eq_dec q2 13); try (exfalso; lia);
      cmp_norm; cbn [andb negb].
    all: by replace ((224 + q2 - 224) * 4096 + (128 + m1 - 128) * 64
                     + (128 + r1 - 128)) with c by lia. }
  destruct (N.ltb_spec c 1114112); [|done].
  intros [= <-]. cbn [app utf8_decode]. unfold is_cont.
  destruct (N.eq_dec q3 0), (N.eq_dec q3 4); try (exfalso; lia);
    cmp_norm; cbn [andb negb].
  all: by replace ((240 + q3 - 240) * 262144 + (128 + m2 - 128) * 4096
                   + (128 + m1 - 128) * 64 + (128 + r1 - 128)) with c by lia.
Qed.

Lemma utf8_decode_encode (s : pystr) (ns : list (list N)) :
  mapM utf8_encode_char s = Some ns -> utf8_decode (concat ns) = Some s.
Proof.
  revert ns. induction s as [|c s IH]; intros ns Hs.
  - by injection Hs as <-.
  - apply mapM_Some in Hs. inversion Hs as [|? enc ? ns' Hc Hrest]; subst.
    cbn [concat]. rewrite (utf8_decode_encode_char c enc) by done.
    rewrite (IH ns') by (by apply mapM_Some). done.
Qed.

Lemma bytes_to_N (ns : list N) (b : bytes) :
  mapM Byte.of_N ns = Some b -> map Byte.to_N b = ns.
Proof.
  intros H. apply mapM_Some in H.
  induction H as [|n x ns b Hx _ IH]; [done|].
  cbn [map]. apply Byte.to_of_N in Hx. by rewrite IH, Hx.
Qed.

(** Text that [str.encode('utf-8')] accepts is what
    [bytes.decode('utf-8')] reads back from its bytes. *)
Lemma decode_encode (s : pystr) (b : bytes) :
  encode s = Some b -> decode b = Some s.
Proof.
  unfold encode, decode. intros H.
  destruct (mapM utf8_encode_char s) as [ns|] eqn:Hns; [|done].
  cbn in H. rewrite (bytes_to_N _ _ H). by apply utf8_decode_encode.
Qed.

(** ** Tokens *)

Lemma elem_of_before (sep c : N) (s : pystr) : c ∈ before sep s -> c ∈ s.
Proof.
  induction s as [|d s IH]; cbn [before]; [done|].
  destruct (d =? sep); [by intros ?%elem_of_nil|].
  rewrite !elem_of_cons. intros [->|H]; [by left|right; by apply IH].
Qed.

Lemma elem_of_after (sep c : N) (s : pystr) : c ∈ after sep s -> c ∈ s.
Proof.
  induction s as [|d s IH]; cbn [after]; [done|].
  destruct (d =? sep); rewrite elem_of_cons; [by right|].
  intros H. right. by apply IH.
Qed.

Lemma elem_of_strip (c : N) (s : pystr) : c ∈ strip s -> c ∈ s.
Proof.
  destruct (strip_spec s) as (l & r & E & _). intros H.
  rewrite E, !elem_of_app. right. by left.
Qed.

(** X2: what a parsed token cannot be.  No token of [parse_output] holds a
    ['>'] or a line break, and none starts or ends with white space. *)
Theorem parse_output_tokens_clean (raw_output tok : pystr) :
  tok ∈ parse_output raw_output ->
  (GT ∉ tok) /\ (NL ∉ tok)
  /\ (forall c, head tok = Some c -> isspace c = false)
  /\ (forall c, last tok = Some c -> isspace c = false).
Proof.
  rewrite parse_output_between. intros Hin.
  apply list_elem_of_In, in_map_iff in Hin as (line & <- & Hline).
  apply list_elem_of_In, list_elem_of_filter in Hline as [_ Hline].
  apply split_segments_no_sep in Hline.
  destruct (strip_spec (before GT (after GT line))) as (_ & _ & _ & _ & _ & Hh & Hl).
  split; [|split; [|by split]].
  - intros H%elem_of_strip. by apply before_no_sep in H.
  - intros H%elem_of_strip%elem_of_before%elem_of_after. done.
Qed.

Lemma parse_output_tokens_clean_witness :
  (GT ∉ str "1") /\ (NL ∉ str "1")
  /\ (forall c, head (str "1") = Some c -> isspace c = false)
  /\ (forall c, last (str "1") = Some c -> isspace c = false).
Proof.
  apply (parse_output_tokens_clean spec_example (str "1")).
  apply list_elem_of_In. by left.
Defined.

Lemma split_app (sep : N) (a b : pystr) :
  split sep (a ++ sep :: b) = split sep a ++ split sep b.
Proof.
  induction a as [|c a IH]; cbn [app split].
  - by rewrite N.eqb_refl.
  - destruct (c =? sep); rewrite IH; [done|].
    pose proof (split_nonempty sep a). by destruct (split sep a).
Qed.

Lemma elem_of_split_segment (sep : N) (s seg : pystr) (c : N) :
  seg ∈ split sep s -> c ∈ seg -> c ∈ s.
Proof.
  revert seg. induction s as [|d s IH]; cbn [split]; intros seg.
  - by intros ->%list_elem_of_singleton.
  - destruct (d =? sep).
    + rewrite !elem_of_cons. intros [->|H] Hc; [by apply elem_of_nil in Hc|].
      right. by apply (IH seg).
    + pose proof (split_nonempty sep s) as Hne.
      destruct (split sep s) as [|seg0 segs]; [done|]. cbn [cons_head].
      rewrite !elem_of_cons. intros [->|H].
      * rewrite elem_of_cons. intros [->|Hc]; [by left|].
        right. apply (IH seg0); [by left|done].
      * intros Hc. right. apply (IH seg); [by right|done].
Qed.

(** X3: the parser works line by line.  The tokens of two texts joined by
    a line break are the tokens of the first followed by those of the
    second, and a text without ['>'] has no tokens. *)
Theorem parse_output_lines (a b : pystr) :
  parse_output (a ++ NL :: b) = parse_output a ++ parse_output b
  /\ ((GT ∉ a) -> parse_output a = []).
Proof.
  split.
  - unfold parse_output. by rewrite split_app, filter_app, map_app.
  - intros Ha. rewrite parse_output_between.
    rewrite (elem_of_nil_inv (filter (fun line => GT ∈ line) (split NL a)));
      [done|].
    intros line [Hgt Hline]%list_elem_of_filter.
    apply Ha. by apply (elem_of_split_segment NL a line).
Qed.

Lemma parse_output_lines_witness : parse_output (str "no result") = [].
Proof.
  apply (proj2 (parse_output_lines (str "no result") [])).
  by apply count_if_sep_0.
Defined.

(** ** The input of the interpreter *)

Lemma encode_char_bounded (c : N) (enc : list N) :
  utf8_encode_char c = Some enc -> Forall (fun n => n <= 255) enc.
Proof.
  unfold utf8_encode_char.
  pose proof (N.mod_lt c 64 ltac:(lia)).
  pose proof (N.mod_lt (c / 64) 64 ltac:(lia)).
  pose proof (N.mod_lt (c / 4096) 64 ltac:(lia)).
  destruct (N.ltb_spec c 128); [intros [= <-]; repeat constructor; lia|].
  destruct (N.ltb_spec c 2048).
  { assert (c / 64 < 32) by (apply N.Div0.div_lt_upper_bound; lia).
    intros [= <-]; repeat constructor; lia. }
  destruct (N.ltb_spec c 65536).
  { assert (c / 4096 < 16) by (apply N.Div0.div_lt_upper_bound; lia).
    destruct (_ && _); [done|]. intros [= <-]; repeat constructor; lia. }
  destruct (N.ltb_spec c 1114112); [|done].
  assert (c / 262144 < 5) by (apply N.Div0.div_lt_upper_bound; lia).
  intros [= <-]; repeat constructor; lia.
Qed.

Lemma encode_char_encodable (c : N) :
  is_Some (utf8_encode_char c) <-> encodable c = true.
Proof.
  unfold utf8_encode_char, encodable.
  destruct (N.ltb_spec c 128), (N.ltb_spec c 2048), (N.ltb_spec c 65536),
    (N.ltb_spec c 1114112), (N.leb_spec 55296 c), (N.leb_spec c 57343),
    (N.ltb_spec c 55296), (N.ltb_spec 57343 c);
    try lia; cbn [andb orb]; split; (done || by eauto || by intros [? ?]).
Qed.

Lemma encode_is_Some (s : pystr) :
  is_Some (encode s) <-> Forall (fun c => encodable c = true) s.
Proof.
  unfold encode. split.
  - intros [b Hb].
    destruct (mapM utf8_encode_char s) as [ns|] eqn:Hns; [|done].
    assert (is_Some (mapM utf8_encode_char s)) as Hs by eauto.
    apply mapM_is_Some in Hs. eapply Forall_impl; [exact Hs|].
    intros c Hc. by apply encode_char_encodable.
  - intros Hs.
    assert (is_Some (mapM utf8_encode_char s)) as [ns Hns].
    { apply mapM_is_Some. eapply Forall_impl; [exact Hs|].
      intros c Hc. by apply encode_char_encodable. }
    rewrite Hns. cbn. apply mapM_is_Some.
    apply Forall_concat. apply mapM_Some in Hns.
    eapply Forall2_Forall_r; [exact Hns|]. apply Forall_true.
    intros c enc Henc. eapply Forall_impl; [by apply (encode_char_bounded c)|].
    intros n Hn. cbn. destruct (Byte.of_N n) eqn:E; [done|].
    apply Byte.of_N_None_iff in E. exfalso. cbn beta in Hn. lia.
Qed.

Lemma elem_of_join (sep : N) (parts : list pystr) (c : N) :
  c ∈ join [sep] parts <-> (c = sep /\ (1 < length parts)%nat)
                           \/ exists t, t ∈ parts /\ c ∈ t.
Proof.
  induction parts as [|p [|q parts] IH].
  - split; [by intros ?%elem_of_nil|].
    intros [[_ H]|(t & Ht & _)]; [cbn in H; lia|by apply elem_of_nil in Ht].
  - cbn [join]. split.
    + intros H. right. exists p. split; [by left|done].
    + intros [[_ H]|(t & Ht & Hc)]; [cbn in H; lia|].
      by apply list_elem_of_singleton in Ht as ->.
  - change (join [sep] (p :: q :: parts))
      with (p ++ [sep] ++ join [sep] (q :: parts)).
    rewrite !elem_of_app, list_elem_of_singleton, IH. split.
    + intros [H|[->|[[-> _]|(t & Ht & Hc)]]].
      * right. exists p. split; [by left|done].
      * left. split; [done|cbn; lia].
      * left. split; [done|cbn; lia].
      * right. exists t. split; [by right|done].
    + intros [[-> _]|(t & Ht & Hc)]; [by right; left|].
      apply elem_of_cons in Ht as [->|Ht]; [by left|].
      right. right. right. by exists t.
Qed.

(** X1: the bytes handed to the interpreter.  [load_input] never touches
    the world; when it returns, its bytes decode to the tokens joined by
    line breaks; and it raises, with [UnicodeEncodeError] and nothing else,
    exactly when a token holds a code point that UTF-8 cannot encode. *)
Theorem load_input_bytes (in_ : list pystr) (w : World) :
  snd (load_input in_ w) = w
  /\ match fst (load_input in_ w) with
     | Ok b => decode b = Some (join [NL] in_)
               /\ forall t c, t ∈ in_ -> c ∈ t -> encodable c = true
     | Raise e => e = UnicodeEncodeError
                  /\ exists t c, t ∈ in_ /\ c ∈ t /\ encodable c = false
     end.
Proof.
  unfold load_input.
  destruct (encode (join [NL] in_)) as [b|] eqn:Hb; cbn [ret raise fst snd].
  - split; [done|]. split; [by apply decode_encode|].
    intros t c Ht Hc.
    assert (is_Some (encode (join [NL] in_))) as Hs by eauto.
    apply encode_is_Some in Hs. rewrite Forall_forall in Hs.
    apply Hs, elem_of_join. right. by exists t.
  - split; [done|]. split; [done|].
    assert (~ Forall (fun c => encodable c = true) (join [NL] in_)) as Hn.
    { intros H%encode_is_Some. rewrite Hb in H. by destruct H. }
    apply not_Forall_Exists in Hn; [|intros c; apply _].
    apply Exists_exists in Hn as (c & Hc & Henc).
    apply elem_of_join in Hc as [[-> _]|(t & Ht & Hc)];
      [exfalso; by apply Henc|].
    exists t, c. split; [done|]. split; [done|]. by apply not_true_is_false.
Qed.

Lemma split_join (sep : N) (parts : list pystr) :
  parts <> [] -> Forall (fun t => sep ∉ t) parts ->
  split sep (join [sep] parts) = parts.
Proof.
  induction parts as [|p [|q parts] IH]; [done| |]; intros _ Hall.
  - cbn [join]. apply Forall_inv in Hall.
    rewrite split_before_after, bool_decide_eq_false_2 by done.
    by rewrite before_no_sep_id.
  - change (join [sep] (p :: q :: parts))
      with (p ++ sep :: join [sep] (q :: parts)).
    apply Forall_cons in Hall as [Hp Hall].
    rewrite split_app, IH by done.
    rewrite split_before_after, bool_decide_eq_false_2 by done.
    by rewrite before_no_sep_id.
Qed.

(** X4: the lines of the input are the tokens.  For at least one token
    and no line break inside a token, splitting the joined text at the line
    breaks gives the tokens back; an empty sequence of tokens and a
    sequence of one empty token are joined to the same, empty, text. *)
Theorem load_input_lines (in_ : list pystr) :
  (in_ <> [] -> Forall (fun t => NL ∉ t) in_ ->
   split NL (join [NL] in_) = in_)
  /\ join [NL] [] = join [NL] [[]].
Proof. split; [apply split_join|done]. Qed.

Lemma load_input_lines_witness :
  split NL (join [NL] [str "5"; str "0"]) = [str "5"; str "0"].
Proof.
  apply (proj1 (load_input_lines [str "5"; str "0"])); [done|].
  repeat constructor; by apply count_if_sep_0.
Defined.

(** ** What every run keeps *)

Lemma keeps_refl (w : World) : keeps w w.
Proof. by split. Qed.

Lemma keeps_trans (w1 w2 w3 : World) :
  keeps w1 w2 -> keeps w2 w3 -> keeps w1 w3.
Proof.
  intros [Hn Hf] [Hn' Hf']. split; [by rewrite Hn'|]. intros p c Hp. eauto.
Qed.

(** A loop keeps what each round keeps and ends the way a round ends. *)
Lemma for_each_ends {A} (I : World -> Prop) (Q : exn -> Prop)
    (body : A -> M unit) (l : list A) :
  (forall x w, I w -> keeps w (snd (body x w)) /\ ends I Q (body x w)) ->
  forall w, I w ->
    keeps w (snd (for_each l body w)) /\ ends I Q (for_each l body w).
Proof.
  intros Hbody. induction l as [|x l IH]; intros w Hw.
  - split; [apply keeps_refl|done].
  - cbn [for_each]. mrun.
    destruct (Hbody x w Hw) as [Hk He]. unfold ends in He.
    destruct (body x w) as [[[]|e] w']; cbn [fst snd] in *; [|done].
    destruct (IH w' He) as [Hk' He']. split; [|done].
    eapply keeps_trans; eauto.
Qed.

(** How a verdict ends: with one report that is not a metadata warning,
    or with a codec error and nothing printed. *)
Lemma verdict_shape (tc : Toolchain) (source : option bytes)
    (in_ out_ : list pystr) (fpath case_title : pystr) :
  match scenario_verdict tc source in_ out_ fpath case_title with
  | (Ok _, ps) =>
      exists o, outcomes ps = [o] /\ is_metadata_warning o = false
  | (Raise e, ps) =>
      ps = [] /\ (e = UnicodeDecodeError \/ e = UnicodeEncodeError)
  end.
Proof.
  unfold scenario_verdict, outcomes.
  repeat case_match; simplify_eq; cbn [omap outcome_of];
    rewrite ?outcome_of_error; eauto.
Qed.

Lemma scenario_keeps (tc : Toolchain) (self : nat) (fpath key : pystr)
    (in_ out_ : list pystr) (w : World) :
  live self fpath key w ->
  keeps w (snd (scenario tc self in_ out_ w))
  /\ ends (live self fpath key) escapes (scenario tc self in_ out_ w).
Proof.
  intros Hlive. pose proof Hlive as (subj & entry & Hs & <- & <- & He).
  destruct (scenario_extends tc self _ _ in_ out_ w Hlive) as [_ Hlive'].
  destruct (scenario_run tc w self subj entry in_ out_ Hs He)
    as (Hres & _ & _ & Hn & _ & _ & Hfiles).
  split; [split; [done|]|].
  - intros p c Hp. rewrite Hfiles; [done|]. intros ->.
    by eapply fresh_ne_existing.
  - unfold ends. rewrite Hres.
    pose proof (verdict_shape tc
      (<[fresh (dom (files w)):=[]]> (files w) !! input_fpath subj)
      in_ out_ (input_fpath subj) (title entry)) as Hv.
    destruct (scenario_verdict _ _ _ _ _ _) as [[[]|e] ps]; [done|].
    destruct Hv as [_ [->| ->]]; unfold escapes; cbn [fst]; eauto.
Qed.

Lemma test_imp_keeps (tc : Toolchain) (self : nat) (fpath key : pystr)
    (w : World) :
  live self fpath key w ->
  keeps w (snd (test_imp tc self w))
  /\ ends (fun _ => True) escapes (test_imp tc self w).
Proof.
  intros Hlive. pose proof Hlive as (subj & entry & Hs & <- & <- & He).
  unfold test_imp. mexec. destruct (negb _); mexec.
  - by split.
  - destruct (for_each_ends (live self (input_fpath subj) (meta subj))
                escapes (fun io => scenario tc self io.1 io.2)
                (zip (input entry) (output entry))) with (w := w)
      as [Hk He']; [|done|].
    + intros [in_ out_] w' Hw'. by apply scenario_keeps.
    + split; [done|]. unfold ends in *. by destruct (fst _).
Qed.

Lemma test_dir_keeps (tc : Toolchain) (dir_ : pystr) (fnames : list pystr)
    (w : World) :
  keeps w (snd (test_dir tc dir_ fnames w))
  /\ ends (fun _ => True) escapes (test_dir tc dir_ fnames w).
Proof.
  unfold test_dir. mexec.
  match goal with |- context [for_each ?l ?b ?w0] =>
    destruct (for_each_ends (fun _ => True) escapes b l) with (w := w0)
      as [Hk He]; [|done|by split]
  end.
  clear w. intros fname w _. mexec.
  destruct (split_max SLASH _ 2 !! 2%nat) as [key|]; mexec;
    [|split; [apply keeps_refl|unfold ends, escapes; cbn; eauto]].
  destruct (tests_dct w !! key) as [entry|] eqn:He; mexec; [|by split].
  match goal with |- context [test_imp tc ?s ?w0] =>
    destruct (test_imp_keeps tc s (path_join dir_ fname) key w0)
      as [Hk He']
  end.
  { eexists _, entry. split; [apply list_lookup_middle; reflexivity|done]. }
  split; [|done]. destruct Hk as [Hn Hf]. by split.
Qed.

Lemma test_all_keeps (tc : Toolchain) (walk : list (pystr * list pystr))
    (w : World) :
  keeps w (snd (test_all tc walk w))
  /\ ends (fun _ => True) escapes (test_all tc walk w).
Proof.
  unfold test_all. apply for_each_ends; [|done].
  intros [dir_ [|fname fnames]] w' _; cbn [fst snd].
  - by split.
  - apply test_dir_keeps.
Qed.

(** X5: a run leaves the files of the corpus alone.  Whatever is on the
    disk when a walk starts is there, with the same contents, when it ends
    or is cut short. *)
Theorem run_keeps_existing_files
    (tc : Toolchain) (walk : list (pystr * list pystr)) (w : World)
    (p : pystr) (content : bytes) :
  files w !! p = Some content ->
  files (snd (test_all tc walk w)) !! p = Some content.
Proof. intros Hp. by apply (test_all_keeps tc walk w). Qed.

Lemma run_keeps_existing_files_witness :
  files (snd (test_all echo_toolchain
                [(str "./in/basic", [str "read_put.imp"])]
                (fresh_world read_put))) !! read_put_path
  = Some (ascii_bytes "READ a; WRITE a;").
Proof.
  apply (run_keeps_existing_files echo_toolchain
           [(str "./in/basic", [str "read_put.imp"])]
           (fresh_world read_put)).
  reflexivity.
Defined.

(** X6: the [no_meta] counter is dead.  No walk of a corpus changes it:
    the warnings for missing and for malformed metadata do not count, and
    the handler of [test_imp] that would is never entered. *)
Theorem no_meta_never_counted
    (tc : Toolchain) (walk : list (pystr * list pystr)) (w : World) :
  no_meta (summary (snd (test_all tc walk w))) = no_meta (summary w).
Proof. apply (test_all_keeps tc walk w). Qed.

(** X7: the exceptions that end a run.  A walk returns, or is ended by
    [IndexError] (a path with fewer than two ['/']), by [UnicodeDecodeError]
    (output of the interpreter that is not UTF-8) or by [UnicodeEncodeError]
    (an input token that cannot be encoded); the exceptions of the
    compile and run steps never leave it. *)
Theorem run_ends_normally_or_escapes
    (tc : Toolchain) (walk : list (pystr * list pystr)) (w : World) :
  match fst (test_all tc walk w) with
  | Ok _ => True
  | Raise e =>
      e = IndexError \/ e = UnicodeDecodeError \/ e = UnicodeEncodeError
  end.
Proof. apply (test_all_keeps tc walk w). Qed.

(** ** Reports, subprocesses and the disk *)

Lemma for_each_cons {A} (body : A -> M unit) (x : A) (l : list A)
    (w : World) :
  for_each (x :: l) body w
  = match body x w with
    | (Ok _, w') => for_each l body w'
    | (Raise e, w') => (Raise e, w')
    end.
Proof. reflexivity. Qed.

Lemma scenarios_counted (tc : Toolchain) (self : nat) (fpath key : pystr)
    (l : list (list pystr * list pystr)) (w : World) :
  live self fpath key w ->
  fst (for_each l (fun io => scenario tc self io.1 io.2) w) = Ok tt ->
  exists ps,
    stdout (snd (for_each l (fun io => scenario tc self io.1 io.2) w))
    = stdout w ++ ps
    /\ length (outcomes ps) = length l
    /\ Forall (fun o => is_metadata_warning o = false) (outcomes ps).
Proof.
  revert w. induction l as [|[in_ out_] l IH]; intros w Hlive.
  - intros _. exists []. by rewrite app_nil_r.
  - rewrite for_each_cons. cbn [fst snd].
    destruct (scenario_extends tc self fpath key in_ out_ w Hlive)
      as [_ Hlive'].
    destruct Hlive as (subj & entry & Hs & <- & <- & He).
    destruct (scenario_run tc w self subj entry in_ out_ Hs He)
      as (Hres & Hout & _).
    pose proof (verdict_shape tc
      (<[fresh (dom (files w)):=[]]> (files w) !! input_fpath subj)
      in_ out_ (input_fpath subj) (title entry)) as Hv.
    destruct (scenario_verdict _ _ _ _ _ _) as [[[]|e] ps1];
      cbn [fst snd] in *;
      destruct (scenario tc self in_ out_ w) as [[[]|e'] w'];
      cbn [fst snd] in *; try done.
    destruct Hv as (o & Ho & Hw). intros Hok.
    destruct (IH w' Hlive' Hok) as (ps2 & Hout2 & Hlen & Hall).
    exists (ps1 ++ ps2). split; [by rewrite Hout2, Hout, app_assoc|].
    rewrite outcomes_app, Ho. split; [cbn; by rewrite Hlen|].
    by constructor.
Qed.

(** X8: one report per scenario.  When [test_imp] returns for a test case
    with as many output as input scenarios, it has printed exactly one
    outcome for each scenario, none of them a metadata warning. *)
Theorem one_report_per_scenario
    (tc : Toolchain) (w : World) (self : nat) (subj : TestSubject)
    (entry : TestCase) :
  subjects w !! self = Some subj ->
  tests_dct w !! meta subj = Some entry ->
  length (input entry) = length (output entry) ->
  fst (test_imp tc self w) = Ok tt ->
  let os := outcomes (printed_since w (snd (test_imp tc self w))) in
  length os = length (input entry)
  /\ Forall (fun o => is_metadata_warning o = false) os.
Proof.
  intros Hs He Hlen. unfold test_imp, printed_since. mexec.
  apply Nat.eqb_eq in Hlen as Hlen'. rewrite Hlen'. mexec. intros Hok.
  destruct (scenarios_counted tc self (input_fpath subj) (meta subj)
              (zip (input entry) (output entry)) w) as (ps & Hout & Hn & Hall);
    [by exists subj, entry|done|].
  rewrite Hout, drop_app_length, Hn, length_zip_with. split; [lia|done].
Qed.

Lemma one_report_per_scenario_witness :
  let w := read_put_world read_put in
  let os := outcomes (printed_since w (snd (test_imp echo_toolchain 0 w))) in
  length os = length (input read_put)
  /\ Forall (fun o => is_metadata_warning o = false) os.
Proof.
  apply (one_report_per_scenario echo_toolchain (read_put_world read_put)
           0 read_put_subject read_put); reflexivity.
Defined.

(** X9: the subprocesses of one scenario.  A scenario whose input cannot
    be encoded starts none.  Any other scenario runs the compiler once, on
    the contents of the source file, and then the interpreter once, on the
    temporary file and the encoded input, if and only if the compile left
    an artifact: nothing is reused from an earlier scenario, and the
    interpreter is never run after a failed compile. *)
Theorem scenario_subprocesses
    (tc : Toolchain) (w : World) (self : nat) (subj : TestSubject)
    (entry : TestCase) (in_ out_ : list pystr) (program : bytes) :
  subjects w !! self = Some subj ->
  tests_dct w !! meta subj = Some entry ->
  files w !! input_fpath subj = Some program ->
  calls (snd (scenario tc self in_ out_ w))
  = calls w ++
    match encode (join [NL] in_) with
    | None => []
    | Some input_ =>
        CallCompiler program ::
        if compiles_cleanly tc program
        then [CallInterpreter (fresh (dom (files w))) input_]
        else []
    end.
Proof.
  intros Hs He Hf.
  pose proof (lookup_lt_Some _ _ _ Hs) as Hlt.
  pose proof (fresh_ne_existing _ _ _ Hf) as Hne.
  unfold compiles_cleanly. mexec. mbranch; mexec; [|by rewrite app_nil_r].
  rewrite lookup_insert_ne by done. mpaths; rewrite <- ?app_assoc; done.
Qed.

Lemma scenario_subprocesses_witness :
  calls (snd (scenario echo_toolchain 0 [str "10"] [str "10"]
                (read_put_world read_put)))
  = calls (read_put_world read_put) ++
    match encode (join [NL] [str "10"]) with
    | None => []
    | Some input_ =>
        CallCompiler (ascii_bytes "READ a; WRITE a;") ::
        if compiles_cleanly echo_toolchain (ascii_bytes "READ a; WRITE a;")
        then [CallInterpreter
                (fresh (dom (files (read_put_world read_put)))) input_]
        else []
    end.
Proof.
  apply (scenario_subprocesses echo_toolchain (read_put_world read_put) 0
           read_put_subject read_put); reflexivity.
Defined.

(** The disk after [test], by the way it ends. *)
Lemma test_disk (tc : Toolchain) (w : World) (self : nat)
    (subj : TestSubject) (entry : TestCase)
    (input_ : bytes) (out_ : list pystr) :
  subjects w !! self = Some subj ->
  tests_dct w !! meta subj = Some entry ->
  match fst (test tc self input_ out_ w) with
  | Ok _ => files (snd (test tc self input_ out_ w)) = files w
  | Raise CompilationFailed | Raise CompilationException =>
      files (snd (test tc self input_ out_ w))
      = <[fresh (dom (files w)) := []]> (files w)
  | Raise _ =>
      exists art, files (snd (test tc self input_ out_ w))
                  = <[fresh (dom (files w)) := art]> (files w)
  end.
Proof.
  intros Hs He. pose proof (lookup_lt_Some _ _ _ Hs) as Hlt.
  assert (files w !! fresh (dom (files w)) = None) as Hfresh
    by apply not_elem_of_dom, is_fresh.
  mexec.
  destruct (<[fresh (dom (files w)):=[]]> (files w) !! input_fpath subj);
    mpaths; rewrite ?insert_insert_eq; try done; eauto.
  all: by rewrite delete_insert_id.
Qed.

(** X10: a scenario that gets as far as comparing tokens cleans up after
    itself.  When [test] returns, with a match or a mismatch, the disk is
    exactly as it was before the call. *)
Theorem test_restores_disk_on_return
    (tc : Toolchain) (w : World) (self : nat) (subj : TestSubject)
    (entry : TestCase) (input_ : bytes) (out_ : list pystr) (b : bool) :
  subjects w !! self = Some subj ->
  tests_dct w !! meta subj = Some entry ->
  fst (test tc self input_ out_ w) = Ok b ->
  files (snd (test tc self input_ out_ w)) = files w.
Proof.
  intros Hs He Hok.
  pose proof (test_disk tc w self subj entry input_ out_ Hs He) as H.
  by rewrite Hok in H.
Qed.

Lemma test_restores_disk_on_return_witness :
  files (snd (test echo_toolchain 0 (ascii_bytes "10") [str "10"]
                (read_put_world read_put)))
  = files (read_put_world read_put).
Proof.
  apply (test_restores_disk_on_return echo_toolchain
           (read_put_world read_put) 0 read_put_subject read_put
           (ascii_bytes "10") [str "10"] true); reflexivity.
Defined.

(** X11: a failed compile leaves a file behind.  When [test] ends with
    [CompilationFailed] or [CompilationException], the file that [mkstemp]
    made, which was not on the disk before, is still there, empty; nothing
    else on the disk has changed. *)
Theorem failed_compile_leaves_empty_file
    (tc : Toolchain) (w : World) (self : nat) (subj : TestSubject)
    (entry : TestCase) (input_ : bytes) (out_ : list pystr) :
  subjects w !! self = Some subj ->
  tests_dct w !! meta subj = Some entry ->
  fst (test tc self input_ out_ w) = Raise CompilationFailed
  \/ fst (test tc self input_ out_ w) = Raise CompilationException ->
  files w !! fresh (dom (files w)) = None
  /\ files (snd (test tc self input_ out_ w))
     = <[fresh (dom (files w)) := []]> (files w).
Proof.
  intros Hs He Hfail. split; [apply not_elem_of_dom, is_fresh|].
  pose proof (test_disk tc w self subj entry input_ out_ Hs He) as H.
  by destruct Hfail as [Hf|Hf]; rewrite Hf in H.
Qed.

Lemma failed_compile_leaves_empty_file_witness :
  let w := read_put_world read_put in
  files w !! fresh (dom (files w)) = None
  /\ files (snd (test rejecting_toolchain 0 (ascii_bytes "10") [str "10"] w))
     = <[fresh (dom (files w)) := []]> (files w).
Proof.
  apply (failed_compile_leaves_empty_file rejecting_toolchain
           (read_put_world read_put) 0 read_put_subject read_put);
    [reflexivity|reflexivity|left; reflexivity].
Defined.

(** ** Paths and directories *)

Lemma path_join_plain (dir_ fname : pystr) (c : N) :
  last dir_ = Some c -> c <> SLASH -> startswith fname [SLASH] = false ->
  path_join dir_ fname = dir_ ++ SLASH :: fname.
Proof.
  intros Hl Hc Hf. unfold path_join. rewrite Hf, Hl.
  by apply N.eqb_neq in Hc as ->.
Qed.

Lemma load_meta_third (a b rest : pystr) (w : World) :
  (SLASH ∉ a) -> (SLASH ∉ b) ->
  load_meta (a ++ SLASH :: b ++ SLASH :: rest) w
  = (match tests_dct w !! rest with
     | Some _ => Ok rest
     | None => Raise NoMetaError
     end, w).
Proof.
  intros Ha Hb. mrun. rewrite split_max_third by done. mrun.
  by destruct (tests_dct w !! rest).
Qed.

Lemma last_no_sep (sep : N) (s : pystr) (c : N) :
  (sep ∉ s) -> last s = Some c -> c <> sep.
Proof.
  intros Hs Hl ->. apply Hs. apply last_Some in Hl as [s' ->].
  apply elem_of_app. right. by left.
Qed.

(** X12: the key of a file of the corpus.  For a root directory of two
    components such as [./in], a file directly in the root is looked up
    under its name, and a file in a directory below the root under the
    path of that directory relative to the root, a ['/'], and its name. *)
Theorem corpus_file_key (a b rel fname : pystr) (w : World) :
  (SLASH ∉ a) -> (SLASH ∉ b) -> b <> [] ->
  startswith fname [SLASH] = false ->
  load_meta (path_join (a ++ SLASH :: b) fname) w
  = (match tests_dct w !! fname with
     | Some _ => Ok fname
     | None => Raise NoMetaError
     end, w)
  /\ (forall c, last rel = Some c -> c <> SLASH ->
      load_meta (path_join (a ++ SLASH :: b ++ SLASH :: rel) fname) w
      = (match tests_dct w !! (rel ++ SLASH :: fname) with
         | Some _ => Ok (rel ++ SLASH :: fname)
         | None => Raise NoMetaError
         end, w)).
Proof.
  intros Ha Hb Hne Hf. split.
  - destruct (last b) as [c|] eqn:Hl; [|by apply last_None in Hl].
    rewrite (path_join_plain _ fname c);
      [|by rewrite last_app, last_cons, Hl
       |by eapply last_no_sep|done].
    rewrite <- app_assoc. cbn [app].
    by apply load_meta_third.
  - intros c Hl Hc.
    rewrite (path_join_plain _ fname c); [| |done|done].
    + rewrite <- !app_assoc. cbn [app]. rewrite <- app_assoc. cbn [app].
      by apply load_meta_third.
    + by rewrite last_app, last_cons, last_app, last_cons, Hl.
Qed.

Lemma corpus_file_key_witness :
  load_meta (path_join (str "./in") (str "hello.imp")) (init_world ∅ ∅)
  = (Raise NoMetaError, init_world ∅ ∅)
  /\ load_meta (path_join (str "./in/basic") (str "assign.imp"))
       (init_world ∅ ∅)
     = (Raise NoMetaError, init_world ∅ ∅).
Proof.
  destruct (corpus_file_key (str ".") (str "in") (str "basic")
              (str "assign.imp") (init_world ∅ ∅)) as [_ Hsub];
    [by apply count_if_sep_0|by apply count_if_sep_0|done|done|].
  destruct (corpus_file_key (str ".") (str "in") (str "basic")
              (str "hello.imp") (init_world ∅ ∅)) as [Hroot _];
    [by apply count_if_sep_0|by apply count_if_sep_0|done|done|].
  split; [exact Hroot|]. by apply (Hsub 99).
Defined.

(** X13: a directory given without a ['/'].  When neither the directory
    nor the first file name holds a ['/'], [test_dir] is ended by
    [IndexError] at the first file: the header is all it prints, and no
    file is tested. *)
Theorem directory_without_separator
    (tc : Toolchain) (dir_ fname : pystr) (fnames : list pystr)
    (w : World) :
  (SLASH ∉ dir_) -> (SLASH ∉ fname) ->
  test_dir tc dir_ (fname :: fnames) w
  = (Raise IndexError, with_stdout (stdout w ++ [PHeader dir_]) w).
Proof.
  intros Hd Hf. unfold test_dir. mrun. rewrite for_each_cons. mrun.
  rewrite split_max_short; [done|].
  unfold path_join.
  assert (startswith fname [SLASH] = false) as ->.
  { destruct fname as [|c fname]; [done|]. cbn.
    apply not_elem_of_cons in Hf as [Hne _].
    apply not_eq_sym, N.eqb_neq in Hne as ->. done. }
  apply count_if_sep_0 in Hf as Hf'.
  destruct (last dir_) as [c|] eqn:Hl.
  - pose proof (last_no_sep SLASH dir_ c Hd Hl) as Hc.
    apply N.eqb_neq in Hc as ->.
    rewrite count_if_cut, Hf' by done. lia.
  - apply last_None in Hl as ->. cbn [app]. rewrite Hf'. lia.
Qed.

Lemma directory_without_separator_witness :
  test_dir echo_toolchain (str "in") [str "read_put.imp"]
    (fresh_world read_put)
  = (Raise IndexError,
     with_stdout (stdout (fresh_world read_put) ++ [PHeader (str "in")])
       (fresh_world read_put)).
Proof.
  apply (directory_without_separator echo_toolchain (str "in")
           (str "read_put.imp") [] (fresh_world read_put));
    by apply count_if_sep_0.
Defined.

(** One round of [test_dir] on a file that has no entry. *)
Lemma missing_round (tc : Toolchain) (dir_ : pystr) (fnames : list pystr)
    (w : World) :
  (forall f, f ∈ fnames ->
     exists a b rest,
       path_join dir_ f = a ++ SLASH :: b ++ SLASH :: rest
       /\ (SLASH ∉ a) /\ (SLASH ∉ b) /\ tests_dct w !! rest = None) ->
  let body := fun fname =>
    let fpath := path_join dir_ fname in
    (found <- catch (key <- load_meta fpath ;; ret (Some key))
                (fun e =>
                   match e with
                   | NoMetaError =>
                       handle_exc (print_no_meta fpath) ;;; ret None
                   | _ => raise e
                   end) ;;
     match found with
     | None => ret tt
     | Some meta_ref =>
         subj <- TestSubject_new fpath meta_ref ;; test_imp tc subj
     end)%harness in
  let r := for_each fnames body w in
  fst r = Ok tt
  /\ stdout (snd r)
     = stdout w
       ++ flat_map (fun f => [PBlank; PNoMeta (path_join dir_ f)]) fnames
  /\ calls (snd r) = calls w /\ files (snd r) = files w
  /\ tests_dct (snd r) = tests_dct w /\ summary (snd r) = summary w
  /\ subjects (snd r) = subjects w.
Proof.
  revert w. induction fnames as [|f fnames IH]; intros w Hall body r.
  - subst r. cbn. by rewrite app_nil_r.
  - subst r. rewrite for_each_cons.
    destruct (Hall f ltac:(by left)) as (a & b & rest & E & Ha & Hb & Hk).
    subst body. cbn beta zeta. mrun. rewrite E.
    rewrite split_max_third by done. mrun. rewrite Hk. mrun.
    rewrite <- E.
    match goal with |- context [for_each fnames ?b ?w0] =>
      destruct (IH w0) as (Hr & Ho & Hc & Hf & Ht & Hs & Hsub)
    end.
    { intros f' Hf'. apply Hall. by right. }
    cbn [stdout calls files tests_dct summary subjects with_last_ok
         with_stdout] in *.
    rewrite Hr, Ho, Hc, Hf, Ht, Hs, Hsub.
    cbn [flat_map app]. by rewrite <- !app_assoc.
Qed.

(** X14: a directory none of whose files has an entry.  When every path
    has its two separators and no key is in the table, [test_dir] returns,
    prints the header and one warning per file, in order, starts no
    subprocess, and leaves the disk, the table and the summary as they
    were. *)
Theorem directory_without_metadata
    (tc : Toolchain) (dir_ : pystr) (fnames : list pystr) (w : World) :
  (forall f, f ∈ fnames ->
     exists a b rest,
       path_join dir_ f = a ++ SLASH :: b ++ SLASH :: rest
       /\ (SLASH ∉ a) /\ (SLASH ∉ b) /\ tests_dct w !! rest = None) ->
  let r := test_dir tc dir_ fnames w in
  fst r = Ok tt
  /\ printed_since w (snd r)
     = PHeader dir_
       :: flat_map (fun f => [PBlank; PNoMeta (path_join dir_ f)]) fnames
  /\ calls (snd r) = calls w /\ files (snd r) = files w
  /\ tests_dct (snd r) = tests_dct w /\ summary (snd r) = summary w.
Proof.
  intros Hall r. subst r. unfold test_dir, printed_since. mrun.
  match goal with |- context [for_each fnames ?b ?w0] =>
    destruct (missing_round tc dir_ fnames w0 Hall)
      as (Hr & Ho & Hc & Hf & Ht & Hs & _)
  end.
  cbn [stdout calls files tests_dct summary with_stdout] in *.
  rewrite Hr, Ho, Hc, Hf, Ht, Hs, <- app_assoc, drop_app_length. done.
Qed.

Lemma directory_without_metadata_witness :
  let w := fresh_world read_put in
  let r := test_dir echo_toolchain (str "./in/basic") [str "unknown.imp"] w in
  fst r = Ok tt
  /\ printed_since w (snd r)
     = PHeader (str "./in/basic")
       :: flat_map
            (fun f => [PBlank; PNoMeta (path_join (str "./in/basic") f)])
            [str "unknown.imp"]
  /\ calls (snd r) = calls w /\ files (snd r) = files w
  /\ tests_dct (snd r) = tests_dct w /\ summary (snd r) = summary w.
Proof.
  apply (directory_without_metadata echo_toolchain (str "./in/basic")
           [str "unknown.imp"] (fresh_world read_put)).
  intros f ->%list_elem_of_singleton.
  exists (str "."), (str "in"), (str "basic/unknown.imp").
  split; [reflexivity|]. split; [by apply count_if_sep_0|].
  split; [by apply count_if_sep_0|reflexivity].
Defined.

(** ** The summary text and the counters *)

Lemma str_String (c : ascii) (s : string) :
  str (String c s) = N_of_ascii c :: str s.
Proof. reflexivity. Qed.

Lemma digits_no_newline (d : Decimal.uint) :
  NL ∉ str (NilEmpty.string_of_uint d).
Proof.
  induction d; cbn [NilEmpty.string_of_uint];
    rewrite ?str_String, ?not_elem_of_cons;
    [apply not_elem_of_nil|split; [by vm_compute|done]..].
Qed.

Lemma int_str_no_newline (n : nat) : count_if (N.eqb NL) (int_str n) = 0%nat.
Proof.
  apply count_if_sep_0. unfold int_str, NilZero.string_of_uint.
  destruct (Nat.to_uint n) eqn:E; rewrite <- ?E;
    [by apply count_if_sep_0|apply digits_no_newline..].
Qed.

(** X15: the final report.  [Summary.__str__] prints the header line and
    then one line for each of the counters passed, failed,
    compilation_failed and exceptions that is not zero; the value of
    [no_meta] does not enter the text. *)
Theorem summary_report_lines (s : Summary) :
  count_if (N.eqb NL) (Summary_str s)
  = (1 + listed (passed s) + listed (failed s)
     + listed (compilation_failed s) + listed (exceptions s))%nat
  /\ forall n,
       Summary_str {| failed := failed s; passed := passed s;
                      compilation_failed := compilation_failed s;
                      no_meta := n; exceptions := exceptions s |}
       = Summary_str s.
Proof.
  split; [|done].
  unfold Summary_str, listed.
  destruct (0 <? passed s)%nat, (0 <? failed s)%nat,
    (0 <? compilation_failed s)%nat, (0 <? exceptions s)%nat;
    rewrite !count_if_app, ?int_str_no_newline; reflexivity.
Qed.

(** X16: the counters only grow.  Over any walk, ended normally or not,
    none of the four counters of the final report decreases. *)
Theorem counters_never_decrease
    (tc : Toolchain) (walk : list (pystr * list pystr)) (w : World) :
  let s := summary w in
  let s' := summary (snd (test_all tc walk w)) in
  (passed s <= passed s')%nat /\ (failed s <= failed s')%nat
  /\ (compilation_failed s <= compilation_failed s')%nat
  /\ (exceptions s <= exceptions s')%nat.
Proof.
  intros s s'. subst s s'.
  destruct (test_all_extends tc walk w) as [(ps & _ & Ht) _].
  unfold tally, add4 in Ht.
  destruct (tag_counts (outcomes ps)) as [[[p f] c] x].
  injection Ht as H1 H2 H3 H4. rewrite H1, H2, H3, H4. lia.
Qed.

(** X17: [Tester.last_ok].  After a scenario that returns, [last_ok] is
    set exactly when the scenario was reported as passed. *)
Theorem last_ok_tracks_pass
    (tc : Toolchain) (w : World) (self : nat) (subj : TestSubject)
    (entry : TestCase) (in_ out_ : list pystr) :
  subjects w !! self = Some subj ->
  tests_dct w !! meta subj = Some entry ->
  fst (scenario tc self in_ out_ w) = Ok tt ->
  (last_ok (snd (scenario tc self in_ out_ w)) = true
   <-> outcomes (printed_since w (snd (scenario tc self in_ out_ w)))
       = [Outcome.Passed]).
Proof.
  intros Hs He. pose proof (lookup_lt_Some _ _ _ Hs) as Hlt.
  unfold printed_since. mexec. mbranch; mexec; [|done].
  destruct (<[fresh (dom (files w)):=[]]> (files w) !! input_fpath subj);
    mpaths; intros Hok; try done.
  all: rewrite <- ?app_assoc, drop_app_length; unfold outcomes;
    cbn [omap outcome_of app]; rewrite ?outcome_of_error; cbn [omap];
    split; done.
Qed.

Lemma last_ok_tracks_pass_witness :
  let r := scenario echo_toolchain 0 [str "10"] [str "10"]
             (read_put_world read_put) in
  last_ok (snd r) = true
  <-> outcomes (printed_since (read_put_world read_put) (snd r))
      = [Outcome.Passed].
Proof.
  apply (last_ok_tracks_pass echo_toolchain (read_put_world read_put) 0
           read_put_subject read_put); reflexivity.
Defined.
